(** * StudyApp (CertApp): answer normalisation, matching, question pool,
      quiz session and bank validation.

    Shallow embedding of the decision logic of [quiz_app.py] and of
    [validate_questions] of [main.py].

    - Python [str] values are Rocq strings, one character per code point
      below 256.  [strip], [split], [rstrip] and [repr] are Python's on such
      strings; [upper] is Python's except on the three characters whose
      upper case is not one character below 256 (181, 223 and 255); [chr]
      is Python's below 256, so the letters of the first 191 options are
      those of the program ([letters_fit]).
    - A JSON answer field is [None], an integer, a text, or a list of those
      ([answer]); the validation pass sees whole JSON values ([json]).
      JSON booleans and floating-point numbers are outside the model.
    - A Python [set] of letters or texts is a [gset]; a [dict] is a [gmap].
      The order in which Python iterates over a set of answer values depends
      on hashing: it is the parameter [set_order].
    - Code that can raise returns in the [result] monad.
    - Python integers are unbounded; a Python [float] is a binary64 value of
      [SpecFloat], the Standard Library's specification of floating-point
      arithmetic.
    - The module-level variables and the three JSON files of the program are
      the fields of [state]. *)

From Stdlib Require Import ZArith QArith Ascii String OrderedTypeEx SpecFloat.
From stdpp Require Import gmap strings list fin_maps sorting pretty.

Open Scope string_scope.

(** ** Exceptions *)

Inductive exn :=
  TypeError | IndexError | KeyError | ZeroDivisionError | OverflowError.

Inductive result (A : Type) : Type :=
  | Ok (a : A)
  | Raise (e : exn).
Arguments Ok {A} a.
Arguments Raise {A} e.

#[global] Instance result_ret : MRet result := λ A a, Ok a.
#[global] Instance result_bind : MBind result := λ A B f m,
  match m with Ok a => f a | Raise e => Raise e end.

Fixpoint map_result {A B} (f : A → result B) (l : list A) : result (list B) :=
  match l with
  | [] => Ok []
  | x :: l' => y ← f x; ys ← map_result f l'; Ok (y :: ys)
  end.

Fixpoint fold_result {A B} (f : B → A → result B) (acc : B) (l : list A)
  : result B :=
  match l with
  | [] => Ok acc
  | x :: l' => acc' ← f acc x; fold_result f acc' l'
  end.

(** ** Python values of the answer field *)

Inductive scalar :=
  | SNone
  | SInt (z : Z)
  | SStr (s : string).

Inductive answer :=
  | AScalar (x : scalar)
  | AList (l : list scalar).

#[global] Instance scalar_eq_dec : EqDecision scalar.
Proof. solve_decision. Defined.

#[global] Instance answer_eq_dec : EqDecision answer.
Proof. solve_decision. Defined.

Definition scalar_to_sum (x : scalar) : unit + (Z + string) :=
  match x with
  | SNone => inl ()
  | SInt z => inr (inl z)
  | SStr s => inr (inr s)
  end.

Definition scalar_of_sum (x : unit + (Z + string)) : scalar :=
  match x with
  | inl _ => SNone
  | inr (inl z) => SInt z
  | inr (inr s) => SStr s
  end.

#[global] Instance scalar_countable : Countable scalar.
Proof.
  apply (inj_countable' scalar_to_sum scalar_of_sum).
  by intros [].
Defined.

(** ** Python string built-ins *)

(** [str(raw)] *)
Definition py_str (raw : scalar) : string :=
  match raw with
  | SNone => "None"
  | SInt z => pretty z
  | SStr s => s
  end.

(** [str.isspace] on one character: TAB..CR, FS..US, the space, NEL (133)
    and the no-break space (160). *)
Definition is_space (c : ascii) : bool :=
  let n := nat_of_ascii c in
  ((9 <=? n)%nat && (n <=? 13)%nat) || ((28 <=? n)%nat && (n <=? 32)%nat)
  || (n =? 133)%nat || (n =? 160)%nat.

Fixpoint lstrip (s : string) : string :=
  match s with
  | EmptyString => EmptyString
  | String c r => if is_space c then lstrip r else s
  end.

(** [s.rstrip(chars)], the characters to remove given as a predicate. *)
Fixpoint rstrip_chars (p : ascii → bool) (s : string) : string :=
  match s with
  | EmptyString => EmptyString
  | String c r =>
      match rstrip_chars p r with
      | EmptyString => if p c then EmptyString else String c EmptyString
      | r' => String c r'
      end
  end.

(** [s.strip()] *)
Definition strip (s : string) : string := rstrip_chars is_space (lstrip s).

(** [s.split()]: the maximal runs of non-whitespace characters; [w] is the
    run being read. *)
Fixpoint split_go (w s : string) : list string :=
  match s with
  | EmptyString => match w with EmptyString => [] | _ => [w] end
  | String c r =>
      if is_space c
      then match w with
           | EmptyString => split_go EmptyString r
           | _ => w :: split_go EmptyString r
           end
      else split_go (w ++ String c EmptyString) r
  end.

Definition split (s : string) : list string := split_go EmptyString s.

(** The upper case of one character: a..z, and the Latin-1 letters 224..254
    other than the division sign (247), are 32 above their upper case. *)
Definition upper_char (c : ascii) : ascii :=
  let n := nat_of_ascii c in
  if ((97 <=? n)%nat && (n <=? 122)%nat)
     || ((224 <=? n)%nat && (n <=? 254)%nat && negb (n =? 247)%nat)
  then ascii_of_nat (n - 32) else c.

(** [s.upper()] *)
Fixpoint upper (s : string) : string :=
  match s with
  | EmptyString => EmptyString
  | String c r => String (upper_char c) (upper r)
  end.

(** [chr(n)] as a one-character [str] *)
Definition chr (n : nat) : string := String (ascii_of_nat n) EmptyString.

(** [ord(L)]: a [TypeError] unless [L] has exactly one character. *)
Definition ord (L : string) : result Z :=
  match L with
  | String c EmptyString => Ok (Z.of_nat (nat_of_ascii c))
  | _ => Raise TypeError
  end.

(** [s[0]] *)
Definition str_index0 (s : string) : result string :=
  match s with
  | EmptyString => Raise IndexError
  | String c _ => Ok (String c EmptyString)
  end.

(** [l[i]] for a list and a Python integer index: a negative index counts
    from the end. *)
Definition list_index {A} (l : list A) (i : Z) : result A :=
  let n := Z.of_nat (length l) in
  let j := if (i <? 0)%Z then (n + i)%Z else i in
  if (j <? 0)%Z then Raise IndexError
  else match l !! Z.to_nat j with
       | Some x => Ok x
       | None => Raise IndexError
       end.

(** [sep.join(parts)] on a list of [str] *)
Fixpoint join (sep : string) (parts : list string) : string :=
  match parts with
  | [] => EmptyString
  | [p] => p
  | p :: rest => p ++ sep ++ join sep rest
  end.

(** [sep.join(xs)] on arbitrary values: [TypeError] on an item that is not a
    [str]. *)
Definition as_text (x : scalar) : result string :=
  match x with
  | SStr s => Ok s
  | _ => Raise TypeError
  end.

Definition join_values (sep : string) (xs : list scalar) : result string :=
  parts ← map_result as_text xs; Ok (join sep parts).

(** A dict comprehension [{k: v for ...}]: a later pair replaces an earlier
    one with the same key. *)
Definition dict_of_pairs {V} (kvs : list (string * V)) : gmap string V :=
  foldl (λ m kv, <[kv.1 := kv.2]> m) ∅ kvs.

(** The order of [str] values, as [sorted] uses it. *)
Definition str_le (s1 s2 : string) : Prop := String.leb s1 s2 = true.

#[global] Instance str_le_dec s1 s2 : Decision (str_le s1 s2).
Proof. unfold str_le. apply _. Defined.

(** [sorted(xs)] *)
Definition sorted (xs : list string) : list string := merge_sort str_le xs.

(** ** Robust multiple-choice parsing *)

(** [_letters_map(n)]: [{chr(65 + i): i for i in range(n)}] *)
Definition _letters_map (n : nat) : gmap string nat :=
  dict_of_pairs (map (λ i, (chr (65 + i), i)) (seq 0 n)).

(** [{str(opt).strip(): chr(65 + i) for i, opt in enumerate(options)}] *)
Definition option_to_letter_map (options : list string) : gmap string string :=
  dict_of_pairs (imap (λ i opt, (strip opt, chr (65 + i))) options).

(** What one raw token of the answer contributes, and by which case of the
    loop body. *)
Inductive resolution :=
  | Blank                          (* [if not s: continue] *)
  | LeadingLetter (L : string)     (* Case 1 *)
  | ExactText (L : string)         (* Case 2 *)
  | PunctuatedToken (L : string)   (* Case 3 *)
  | Dropped.                       (* no case applies *)

Definition is_dot_or_colon (c : ascii) : bool :=
  bool_decide (c = "."%char) || bool_decide (c = ":"%char).

Definition resolve_token (letter_to_index : gmap string nat)
    (option_to_letter : gmap string string) (raw : scalar)
  : result resolution :=
  let s := strip (py_str raw) in
  if decide (s = EmptyString) then Ok Blank else
  c ← str_index0 s;
  let first := upper c in
  if decide (is_Some (letter_to_index !! first)) then Ok (LeadingLetter first)
  else
    match option_to_letter !! s with
    | Some L => Ok (ExactText L)
    | None =>
        w ← list_index (split s) 0;
        let token := upper (rstrip_chars is_dot_or_colon w) in
        if decide (is_Some (letter_to_index !! token))
        then Ok (PunctuatedToken token)
        else Ok Dropped
    end.

(** [letters.add(...)] for the case that applied *)
Definition add_resolved (letters : gset string) (r : resolution) : gset string :=
  match r with
  | LeadingLetter L | ExactText L | PunctuatedToken L => letters ∪ {[L]}
  | Blank | Dropped => letters
  end.

Definition normalize_mc_answer_to_letters (options : list string)
    (ans : answer) : result (gset string) :=
  match ans with
  | AScalar SNone => Ok ∅
  | _ =>
      let items := match ans with
                   | AList l => l
                   | AScalar x => [x]
                   end in
      let letter_to_index := _letters_map (length options) in
      let option_to_letter := option_to_letter_map options in
      fold_result
        (λ letters raw,
           r ← resolve_token letter_to_index option_to_letter raw;
           Ok (add_resolved letters r))
        ∅ items
  end.

Definition format_correct_answer (options : list string)
    (letters_set : gset string) : result string :=
  if decide (letters_set = ∅) then Ok "Unknown" else
  let ordered := sorted (elements letters_set) in
  parts ← map_result
    (λ L,
       c ← ord L;
       let idx := (c - 65)%Z in
       if decide (0 ≤ idx < Z.of_nat (length options))%Z
       then opt ← list_index options idx; Ok (L ++ ". " ++ opt)
       else Ok L)
    ordered;
  Ok (join ", " parts).

Section Matcher.

(** The order in which Python iterates over a set of answer values. *)
Variable set_order : gset scalar → list scalar.
Hypothesis set_order_perm : ∀ X, set_order X ≡ₚ elements X.

(** [selected_texts == correct_set]: a set of [str] against a set of answer
    values. *)
Definition texts_equal (selected_texts : gset string)
    (correct_set : gset scalar) : bool :=
  bool_decide (set_map SStr selected_texts = correct_set).

Definition is_mc_selection_correct (options : list string) (correct : answer)
    (selected_letters : gset string) : result (bool * string) :=
  correct_letters ← normalize_mc_answer_to_letters options correct;
  if decide (correct_letters ≠ ∅) then
    display ← format_correct_answer options correct_letters;
    Ok (bool_decide (selected_letters = correct_letters), display)
  else
    (* the set comprehension visits the selected letters in the order of
       [elements]; with several ill-formed letters Python may meet another
       one first *)
    texts ← map_result
      (λ L, c ← ord L; list_index options (c - 65)%Z)
      (elements selected_letters);
    let selected_texts : gset string := list_to_set texts in
    let correct_set : gset scalar :=
      match correct with
      | AList l => list_to_set l
      | AScalar x => {[x]}
      end in
    let is_correct := texts_equal selected_texts correct_set in
    tmp_letters ← normalize_mc_answer_to_letters options
                    (AList (set_order correct_set));
    correct_display ←
      (if decide (tmp_letters ≠ ∅)
       then format_correct_answer options tmp_letters
       else join_values ", " (set_order correct_set));
    Ok (is_correct, correct_display).

End Matcher.

(** ** Floating-point numbers *)

(** A Python [float] is an IEEE 754 binary64 value.  Its operations are
    those of [SpecFloat], the Standard Library's specification of
    floating-point arithmetic, at precision 53 and exponent bound 1024: a
    value is a signed zero, a signed infinity, a NaN, or a finite
    [m * 2^e]. *)
Definition float : Type := spec_float.
Definition prec : Z := 53.
Definition emax : Z := 1024.

(** An integer as the operand of a division: its exact value, [n * 2^0]. *)
Definition int_operand (n : nat) : float :=
  match Z.of_nat n with
  | Z.pos m => S754_finite false m 0
  | _ => S754_zero false
  end.

(** [float(n)]: the nearest [float]. *)
Definition float_of_int (n : Z) : float := binary_normalize prec emax n 0 false.

(** [x * y] on [float]s *)
Definition float_mul (x y : float) : float := SFmul prec emax x y.

(** The literals 0.0, 1.0 and 100.0 *)
Definition float_0 : float := S754_zero false.
Definition float_1 : float := float_of_int 1.
Definition float_100 : float := float_of_int 100.

(** ** Questions, persisted files and module state *)

Record question := {
  q_question : string;
  q_options : list string;
  q_answer : answer;
  q_type : option string;          (* absent: 'multiple_choice' *)
  q_explanation : option string;
  q_image : option string
}.

#[global] Instance question_eq_dec : EqDecision question.
Proof. solve_decision. Defined.

Record score_entry := {
  se_date : string;
  se_correct : nat;
  se_total : nat;
  se_score : float
}.

(** The three JSON files; [None] when the file does not exist. *)
Record files := {
  asked_file : option (list question);     (* asked_questions.json *)
  wrong_file : option (list question);     (* wrong_questions.json *)
  score_file : option (list score_entry)   (* score_history.json *)
}.

Record state := {
  fs : files;
  questions_asked : list question;
  correct_answers : nat;
  question_queue : list question;
  current_question : nat;
  question_memory : list question
}.

Definition with_fs (st : state) (f : files) : state :=
  {| fs := f;
     questions_asked := questions_asked st;
     correct_answers := correct_answers st;
     question_queue := question_queue st;
     current_question := current_question st;
     question_memory := question_memory st |}.

Definition load_asked_questions (f : files) : list question :=
  default [] (asked_file f).

Definition save_asked_questions (questions : list question) (f : files) : files :=
  {| asked_file := Some questions;
     wrong_file := wrong_file f;
     score_file := score_file f |}.

Definition reset_question_memory (f : files) : files :=
  {| asked_file := None;
     wrong_file := wrong_file f;
     score_file := score_file f |}.

Definition load_wrong_questions (f : files) : list question :=
  default [] (wrong_file f).

Definition save_wrong_questions (questions : list question) (f : files) : files :=
  {| asked_file := asked_file f;
     wrong_file := Some questions;
     score_file := score_file f |}.

Definition reset_wrong_questions (f : files) : files :=
  {| asked_file := asked_file f;
     wrong_file := None;
     score_file := score_file f |}.

Definition load_score_history (f : files) : list score_entry :=
  default [] (score_file f).

Definition save_score_history (history : list score_entry) (f : files) : files :=
  {| asked_file := asked_file f;
     wrong_file := wrong_file f;
     score_file := Some history |}.

(** [now] is the formatted [datetime.now()]. *)
Definition record_score (now : string) (score : float) (correct total : nat)
    (f : files) : files :=
  let history := load_score_history f in
  save_score_history
    (history ++ [{| se_date := now; se_correct := correct;
                    se_total := total; se_score := score |}])%list f.

(** [l.remove(x)] once [x in l] is known: the first occurrence goes. *)
Fixpoint remove_first (x : question) (l : list question) : list question :=
  match l with
  | [] => []
  | y :: l' => if decide (x = y) then l' else y :: remove_first x l'
  end.

Definition mark_question_correct (question_data : question) (st : state)
  : state :=
  let st1 :=
    if decide (question_data ∉@{list question} question_memory st) then
      let memory := (question_memory st ++ [question_data])%list in
      {| fs := save_asked_questions memory (fs st);
         questions_asked := questions_asked st;
         correct_answers := correct_answers st;
         question_queue := question_queue st;
         current_question := current_question st;
         question_memory := memory |}
    else st in
  let wrong_qs := load_wrong_questions (fs st1) in
  if decide (question_data ∈@{list question} wrong_qs)
  then with_fs st1 (save_wrong_questions (remove_first question_data wrong_qs)
                      (fs st1))
  else st1.

(** The [else] branch shared by both [submit] closures. *)
Definition mark_question_wrong (question_data : question) (st : state)
  : state :=
  let wrong_qs := load_wrong_questions (fs st) in
  if decide (question_data ∉@{list question} wrong_qs)
  then with_fs st (save_wrong_questions (wrong_qs ++ [question_data])%list (fs st))
  else st.

Definition add_correct (st : state) : state :=
  {| fs := fs st;
     questions_asked := questions_asked st;
     correct_answers := correct_answers st + 1;
     question_queue := question_queue st;
     current_question := current_question st;
     question_memory := question_memory st |}.

(** ** Quiz flow *)

(** What the program puts on screen. *)
Inductive screen :=
  | MultipleChoiceWindow (question_data : question) (question_number : nat)
  | DragAndDropWindow (question_data : question) (question_number : nat)
  | EndWindow (label : string)
  | NoWindow.

(** [a / b] on Python integers: the exact quotient rounded once to the
    nearest [float], ties to even; an [OverflowError] when no finite [float]
    is that near. *)
Definition truediv (a b : nat) : result float :=
  if decide (b = 0%nat) then Raise ZeroDivisionError
  else match SFdiv prec emax (int_operand a) (int_operand b) with
       | S754_infinity _ => Raise OverflowError
       | ratio => Ok ratio
       end.

Definition round_half_even (q : Q) : Z :=
  let n := Qnum q in
  let d := Z.pos (Qden q) in
  let fl := (n / d)%Z in
  let r2 := (2 * (n mod d))%Z in
  if (r2 <? d)%Z then fl
  else if (d <? r2)%Z then (fl + 1)%Z
  else if Z.even fl then fl else (fl + 1)%Z.

(** The rational that the finite [float] with mantissa [m] and exponent [e]
    stands for. *)
Definition float_value (m : positive) (e : Z) : Q :=
  match e with
  | Zneg k => Qmake (Z.pos m) (Pos.shiftl 1 (Npos k))
  | _ => inject_Z (Z.pos m * 2 ^ e)
  end.

Definition sign_text (s : bool) : string := if s then "-" else "".

(** [f"{x:.2f}"]: the value of [x], which is a rational, rounded to
    hundredths, ties to even. *)
Definition format_2f (x : float) : string :=
  match x with
  | S754_zero s => sign_text s ++ "0.00"
  | S754_infinity s => sign_text s ++ "inf"
  | S754_nan => "nan"
  | S754_finite s m e =>
      let h := round_half_even (float_value m e * 100)%Q in
      sign_text s ++ pretty (h / 100)%Z ++ "."
      ++ pretty (h / 10 mod 10)%Z ++ pretty (h mod 10)%Z
  end.

Definition end_quiz (now : string) (st : state) : result (state * screen) :=
  let total_answered :=
    if decide (0 < current_question st)%nat then current_question st
    else 1%nat in
  ratio ← truediv (correct_answers st) total_answered;
  let score := float_mul ratio float_100 in
  let st' := with_fs st
               (record_score now score (correct_answers st) total_answered
                  (fs st)) in
  Ok (st', EndWindow ("Score: " ++ pretty (correct_answers st) ++ "/"
                      ++ pretty total_answered
                      ++ " (" ++ format_2f score ++ "%)")).

Definition ask_question (now : string) (st : state) : result (state * screen) :=
  if decide (length (question_queue st) ≤ current_question st)%nat
  then end_quiz now st
  else
    question_data ← list_index (question_queue st)
                      (Z.of_nat (current_question st));
    let question_number := (current_question st + 1)%nat in
    let question_type := default "multiple_choice" (q_type question_data) in
    if decide (question_type = "multiple_choice")
    then Ok (st, MultipleChoiceWindow question_data question_number)
    else if decide (question_type = "drag_and_drop")
    then Ok (st, DragAndDropWindow question_data question_number)
    else Ok (st, NoWindow).

Definition next_question (now : string) (st : state)
  : result (state * screen) :=
  ask_question now
    {| fs := fs st;
       questions_asked := questions_asked st;
       correct_answers := correct_answers st;
       question_queue := question_queue st;
       current_question := current_question st + 1;
       question_memory := question_memory st |}.

Definition nl : string := String (ascii_of_nat 10) EmptyString.

Section Submit.

Variable set_order : gset scalar → list scalar.

(** [submit] of [ask_multiple_choice]: the new state and the text handed to
    [show_result]. *)
Definition mc_submit (question_data : question) (selected_letters : gset string)
    (st : state) : result (state * string) :=
  let options := q_options question_data in
  let correct := q_answer question_data in
  let explanation :=
    default "No explanation available." (q_explanation question_data) in
  '(is_correct, correct_display) ←
     is_mc_selection_correct set_order options correct selected_letters;
  if is_correct : bool then
    Ok (mark_question_correct question_data (add_correct st),
        "Correct!" ++ nl ++ "Explanation: " ++ explanation)
  else
    Ok (mark_question_wrong question_data st,
        "Wrong! Correct answer: " ++ correct_display ++ nl
        ++ "Explanation: " ++ explanation).

End Submit.

(** [expected = correct if isinstance(correct, (list, tuple)) else [correct]] *)
Definition expected_sequence (correct : answer) : list scalar :=
  match correct with
  | AList l => l
  | AScalar x => [x]
  end.

(** [submit] of [ask_drag_and_drop]; [selected] is what the drop-downs
    show, in order. *)
Definition dnd_submit (question_data : question) (selected : list string)
    (st : state) : result (state * string) :=
  let correct := q_answer question_data in
  let explanation := default "" (q_explanation question_data) in
  let expected := expected_sequence correct in
  let is_correct := bool_decide (SStr <$> selected = expected) in
  if is_correct then
    Ok (mark_question_correct question_data (add_correct st),
        "Correct!" ++ nl ++ "Explanation: " ++ explanation)
  else
    shown ← join_values ", " expected;
    Ok (mark_question_wrong question_data st,
        "Wrong!" ++ nl ++ "Correct sequence: " ++ shown ++ nl
        ++ "Explanation: " ++ explanation).

(** [l[:k]] for a Python integer [k] *)
Definition slice_to {A} (l : list A) (k : Z) : list A :=
  if (k <? 0)%Z then take (Z.to_nat (Z.of_nat (length l) + k)) l
  else take (Z.to_nat k) l.

Section Pool.

(** The outcome of [random.shuffle]. *)
Variable shuffle : list question → list question.
Hypothesis shuffle_perm : ∀ l, shuffle l ≡ₚ l.

(** [sum(topics.values(), [])] *)
Definition all_questions_of (topics : list (string * list question))
  : list question :=
  foldl (λ acc t, acc ++ t.2)%list [] topics.

(** Lines 487-493 of [run_quiz]: the queue from the bank, the mastered list
    and the missed list. *)
Definition session_queue (question_count : Z)
    (topics : list (string * list question))
    (question_memory wrong_questions : list question) : list question :=
  let all_questions := all_questions_of topics in
  let wrong_questions :=
    filter (λ q, q ∈@{list question} all_questions) wrong_questions in
  let remaining_questions :=
    filter (λ q, (q ∉@{list question} question_memory)
                 ∧ (q ∉@{list question} wrong_questions)) all_questions in
  let remaining_questions := shuffle remaining_questions in
  let combined := (wrong_questions ++ remaining_questions)%list in
  let count := Z.min question_count (Z.of_nat (length combined)) in
  slice_to combined count.

(** [reset_memory] and [reset_missed] are the answers to the two
    [askyesno] prompts. *)
Definition run_quiz (now : string) (question_count : Z)
    (topics : list (string * list question))
    (reset_memory reset_missed : bool) (st : state)
  : result (state * screen) :=
  let '(f1, memory) :=
    if reset_memory then (reset_question_memory (fs st), [])
    else (fs st, load_asked_questions (fs st)) in
  let '(f2, wrong_questions) :=
    if reset_missed then (reset_wrong_questions f1, [])
    else (f1, load_wrong_questions f1) in
  let queue := session_queue question_count topics memory wrong_questions in
  ask_question now
    {| fs := f2;
       questions_asked := queue;
       correct_answers := 0;
       question_queue := queue;
       current_question := 0;
       question_memory := memory |}.

End Pool.

(** ** Notions used to state the properties *)

(** [L] is one of the letters [chr(65)], ..., [chr(65 + len(options) - 1)]. *)
Definition valid_letter (options : list string) (L : string) : Prop :=
  is_Some (_letters_map (length options) !! L).

#[global] Instance valid_letter_dec options L : Decision (valid_letter options L).
Proof. unfold valid_letter. apply _. Defined.

(** The letters one token contributes. *)
Definition token_letters (options : list string) (raw : scalar) : gset string :=
  match resolve_token (_letters_map (length options))
          (option_to_letter_map options) raw with
  | Ok r => add_resolved ∅ r
  | Raise _ => ∅
  end.

(** The option letters are 8-bit characters. *)
Definition letters_fit (options : list string) : Prop :=
  (65 + length options ≤ 256)%nat.

#[global] Instance letters_fit_dec options : Decision (letters_fit options).
Proof. unfold letters_fit. apply _. Defined.

(** The indices of the options whose letter is in [letters], ascending. *)
Definition letter_indices (options : list string) (letters : gset string)
  : list nat :=
  filter (λ i, chr (65 + i) ∈ letters) (seq 0 (length options)).

(** The display the matcher is expected to give: every correct letter with
    the text of its option, letters ascending. *)
Definition letters_with_texts (options : list string) (letters : gset string)
  : string :=
  join ", "
    ((λ i, chr (65 + i) ++ ". " ++ default "" (options !! i))
       <$> letter_indices options letters).

(** The texts of the options whose letter is selected. *)
Definition selected_option_texts (options : list string)
    (selected : gset string) : gset string :=
  list_to_set ((λ i, default "" (options !! i))
                 <$> letter_indices options selected).

(** The raw correct-answer field as a set, a scalar being a singleton. *)
Definition correct_value_set (correct : answer) : gset scalar :=
  match correct with
  | AList l => list_to_set l
  | AScalar x => {[x]}
  end.

(** Positional equality of the selected sequence and the expected one. *)
Definition positionally_equal (selected : list string)
    (expected : list scalar) : Prop :=
  length selected = length expected
  ∧ ∀ i x y, selected !! i = Some x → expected !! i = Some y → SStr x = y.

(** The persisted mastered list and missed list share no question. *)
Definition sets_disjoint (f : files) : Prop :=
  ∀ q, q ∈ load_asked_questions f → q ∈ load_wrong_questions f → False.

(** The in-memory mastered list is the persisted one, as [run_quiz] leaves
    it. *)
Definition memory_loaded (st : state) : Prop :=
  question_memory st = load_asked_questions (fs st).

(** The files once the two reset prompts of [run_quiz] are answered. *)
Definition files_after_prompts (reset_memory reset_missed : bool) (f : files)
  : files :=
  let f1 := if reset_memory then reset_question_memory f else f in
  if reset_missed then reset_wrong_questions f1 else f1.

(** What a [submit] with verdict [is_correct] on question [q] makes of the
    two persisted lists, from state [st] to state [st']: the verdict [True]
    puts [q] in the mastered list and takes it out of the missed list, and
    leaves the lists disjoint; the verdict [False] puts [q] in the missed
    list and leaves the mastered list as it is, and the lists are then
    disjoint exactly when [q] was not mastered.  No other question changes
    list. *)
Definition submit_outcome (q : question) (st : state) (is_correct : bool)
    (st' : state) : Prop :=
  memory_loaded st'
  ∧ NoDup (load_wrong_questions (fs st'))
  ∧ (∀ y, y ≠ q →
       (y ∈ load_asked_questions (fs st')
        ↔ y ∈ load_asked_questions (fs st))
       ∧ (y ∈ load_wrong_questions (fs st')
          ↔ y ∈ load_wrong_questions (fs st)))
  ∧ (is_correct = true →
       correct_answers st' = (correct_answers st + 1)%nat
       ∧ q ∈ load_asked_questions (fs st')
       ∧ (q ∉ load_wrong_questions (fs st'))
       ∧ sets_disjoint (fs st'))
  ∧ (is_correct = false →
       correct_answers st' = correct_answers st
       ∧ q ∈ load_wrong_questions (fs st')
       ∧ load_asked_questions (fs st') = load_asked_questions (fs st)
       ∧ (q ∉ load_asked_questions (fs st) ↔ sets_disjoint (fs st'))).

(** ** Sample data *)

Definition sample_question (text : string) (options : list string)
    (ans : answer) : question :=
  {| q_question := text; q_options := options; q_answer := ans;
     q_type := None; q_explanation := None; q_image := None |}.

Definition Q1 := sample_question "Q1" ["Foo"; "Bar"] (AScalar (SStr "A")).
Definition Q2 := sample_question "Q2" ["Foo"; "Bar"] (AScalar (SStr "B")).
Definition Q3 := sample_question "Q3" ["Foo"; "Bar"] (AScalar (SStr "A")).
Definition Q4 := sample_question "Q4" ["Foo"; "Bar"] (AScalar (SStr "B")).

Definition sample_sequence_question : question :=
  {| q_question := "Order the steps"; q_options := ["c"; "a|b"; "a"; "b"];
     q_answer := AList [SStr "a|b"; SStr "c"];
     q_type := Some "drag_and_drop"; q_explanation := None;
     q_image := None |}.

(** The correct value is one text, not a list. *)
Definition sample_single_question : question :=
  {| q_question := "Name the pipeline"; q_options := ["a|b"; "a"; "b"];
     q_answer := AScalar (SStr "a|b");
     q_type := Some "drag_and_drop"; q_explanation := None;
     q_image := None |}.

Definition no_files : files :=
  {| asked_file := None; wrong_file := None; score_file := None |}.

Definition initial_state (f : files) : state :=
  {| fs := f; questions_asked := []; correct_answers := 0;
     question_queue := []; current_question := 0; question_memory := [] |}.

(** Q4 mastered, Q2 missed. *)
Definition sample_progress : files :=
  {| asked_file := Some [Q4]; wrong_file := Some [Q2]; score_file := None |}.

Definition sample_bank : list (string * list question) :=
  [("Topic 1", [Q1; Q2]); ("Topic 2", [Q3; Q4])].

(** A state at the first question of the queue [queue]. *)
Definition with_queue (queue : list question) (st : state) : state :=
  {| fs := fs st;
     questions_asked := queue;
     correct_answers := 0;
     question_queue := queue;
     current_question := 0;
     question_memory := load_asked_questions (fs st) |}.

(** The raw correct-answer field is a text or a list of texts. *)
Definition text_valued (correct : answer) : Prop :=
  match correct with
  | AScalar (SStr _) => True
  | AScalar _ => False
  | AList l => Forall (λ x, ∃ s, x = SStr s) l
  end.

(** One answered question in the intended flow of a session: the window of
    the current question is shown according to its type, the answer is
    submitted once, and "OK" on the result moves to the next question. *)
Inductive session_step (set_order : gset scalar → list scalar)
  : state → state → Prop :=
  | step_multiple_choice st q letters st1 msg now st2 scr :
      question_queue st !! current_question st = Some q →
      default "multiple_choice" (q_type q) = "multiple_choice" →
      mc_submit set_order q letters st = Ok (st1, msg) →
      next_question now st1 = Ok (st2, scr) →
      session_step set_order st st2
  | step_drag_and_drop st q sequence st1 msg now st2 scr :
      question_queue st !! current_question st = Some q →
      default "multiple_choice" (q_type q) = "drag_and_drop" →
      dnd_submit q sequence st = Ok (st1, msg) →
      next_question now st1 = Ok (st2, scr) →
      session_step set_order st st2.

(** What a session keeps true: the two lists are disjoint and free of
    repetition where it matters, the in-memory mastered list is the
    persisted one, and no question still to come is mastered. *)
Definition session_invariant (st : state) : Prop :=
  sets_disjoint (fs st)
  ∧ NoDup (load_wrong_questions (fs st))
  ∧ memory_loaded st
  ∧ NoDup (question_queue st)
  ∧ ∀ j q, (current_question st ≤ j)%nat → question_queue st !! j = Some q →
           q ∉ load_asked_questions (fs st).

(** What holds of the counters and of the history after some answers,
    relative to the history [h0] before the session and the queue
    [queue]. *)
Definition session_progress (h0 : list score_entry) (queue : list question)
    (st : state) : Prop :=
  question_queue st = queue
  ∧ (current_question st ≤ length queue)%nat
  ∧ (correct_answers st ≤ current_question st)%nat
  ∧ ((current_question st < length queue)%nat →
     load_score_history (fs st) = h0)
  ∧ ((0 < length queue)%nat → current_question st = length queue →
     ∃ date ratio,
       truediv (correct_answers st) (length queue) = Ok ratio
       ∧ load_score_history (fs st)
         = (h0 ++ [{| se_date := date;
                      se_correct := correct_answers st;
                      se_total := length queue;
                      se_score := float_mul ratio float_100 |}])%list).

(** ** The validation pass of main.py *)

(** A JSON value as [json.load] gives it: a scalar, a list, or a dict, the
    latter as its items in order (a key occurs once). *)
Inductive json :=
  | JScalar (x : scalar)
  | JList (items : list json)
  | JObject (fields : list (string * json)).

(** [d.get(key)], [None] standing for an absent key *)
Fixpoint json_get (key : string) (fields : list (string * json))
  : option json :=
  match fields with
  | [] => None
  | (k, v) :: rest => if decide (k = key) then Some v else json_get key rest
  end.

(** Truth value of a JSON value in a condition *)
Definition truthy (v : json) : bool :=
  match v with
  | JScalar SNone => false
  | JScalar (SInt z) => negb (z =? 0)%Z
  | JScalar (SStr s) => negb (bool_decide (s = EmptyString))
  | JList items => match items with [] => false | _ => true end
  | JObject fields => match fields with [] => false | _ => true end
  end.

(** [isinstance(v, str)] *)
Definition is_text (v : json) : bool :=
  match v with
  | JScalar (SStr _) => true
  | _ => false
  end.

(** [v == s] for a text [s] *)
Definition equals_text (v : json) (s : string) : bool :=
  match v with
  | JScalar (SStr t) => bool_decide (t = s)
  | _ => false
  end.

Definition backslash : ascii := ascii_of_nat 92.
Definition single_quote : ascii := ascii_of_nat 39.
Definition double_quote : ascii := ascii_of_nat 34.

Definition hex_digit (n : nat) : ascii :=
  if (n <? 10)%nat then ascii_of_nat (48 + n) else ascii_of_nat (87 + n).

(** One character inside [repr] of a [str] delimited by [quote]: the
    characters that are not printable (0..31, 127..160 and 173) are
    escaped. *)
Definition escape_char (quote c : ascii) : string :=
  let n := nat_of_ascii c in
  if bool_decide (c = quote) || bool_decide (c = backslash)
  then String backslash (String c EmptyString)
  else if bool_decide (n = 9%nat) then String backslash "t"
  else if bool_decide (n = 10%nat) then String backslash "n"
  else if bool_decide (n = 13%nat) then String backslash "r"
  else if (n <? 32)%nat || ((127 <=? n)%nat && (n <=? 160)%nat)
          || bool_decide (n = 173%nat)
  then String backslash
         (String "x"%char
            (String (hex_digit (n / 16))
               (String (hex_digit (n mod 16)) EmptyString)))
  else String c EmptyString.

Fixpoint contains_char (c : ascii) (s : string) : bool :=
  match s with
  | EmptyString => false
  | String d r => bool_decide (c = d) || contains_char c r
  end.

Fixpoint escape_all (quote : ascii) (s : string) : string :=
  match s with
  | EmptyString => EmptyString
  | String c r => escape_char quote c ++ escape_all quote r
  end.

(** [repr(s)] of a [str]: double quotes when the text has a single quote
    and no double quote, single quotes otherwise. *)
Definition repr_str (s : string) : string :=
  let quote :=
    if contains_char single_quote s && negb (contains_char double_quote s)
    then double_quote else single_quote in
  String quote EmptyString ++ escape_all quote s ++ String quote EmptyString.

(** [repr(v)] *)
Fixpoint py_repr (v : json) : string :=
  match v with
  | JScalar (SStr s) => repr_str s
  | JScalar x => py_str x
  | JList items => "[" ++ join ", " (map py_repr items) ++ "]"
  | JObject fields =>
      "{"
      ++ join ", "
           (map (λ kv, repr_str kv.1 ++ ": " ++ py_repr kv.2) fields)
      ++ "}"
  end.

(** [str(v)] *)
Definition py_str_json (v : json) : string :=
  match v with
  | JScalar x => py_str x
  | _ => py_repr v
  end.

(** The normaliser reads its arguments through [str] only: an option is
    passed as its [str], an answer item that is a container as the text of
    its [str]. *)
Definition scalar_view (v : json) : scalar :=
  match v with
  | JScalar x => x
  | _ => SStr (py_str_json v)
  end.

Definition answer_of_json (v : json) : answer :=
  match v with
  | JScalar x => AScalar x
  | JList items => AList (scalar_view <$> items)
  | JObject _ => AScalar (scalar_view v)
  end.

Definition options_of_json (opts : list json) : list string :=
  py_str_json <$> opts.

Definition json_none : json := JScalar SNone.

(** The issue texts *)
Definition topic_not_a_list (topic : string) : string :=
  "Topic '" ++ topic ++ "' is not a list of questions".

Definition not_an_object (place : string) : string :=
  place ++ " not an object".

Definition invalid_question (place : string) : string :=
  place ++ " missing/invalid 'question'".

Definition invalid_options (place : string) : string :=
  place ++ " missing/invalid 'options'".

(** [list('ABCD')[:len(opts)]] is shown in the text. *)
Definition mc_unparseable (place : string) (opts : list json) : string :=
  place ++ " MC answer unparseable; consider using letters like "
  ++ py_repr (JList (JScalar ∘ SStr <$> take (length opts) ["A"; "B"; "C"; "D"]))
  ++ " or exact option text".

Definition dnd_answer_not_a_list (place : string) : string :=
  place ++ " DnD 'answer' must be a non-empty list".

Definition unknown_type (place : string) (qtype : json) : string :=
  place ++ " unknown type '" ++ py_str_json qtype ++ "'".

(** The body of the inner loop of [validate_questions] after [total += 1]:
    the issues it appends for entry [idx] of [topic]. *)
Definition validate_question (topic : string) (idx : nat) (q : json)
  : result (list string) :=
  let place := topic ++ "[" ++ pretty idx ++ "]" in
  match q with
  | JObject fields =>
      let qtext := default json_none (json_get "question" fields) in
      let opts := default json_none (json_get "options" fields) in
      let ans := default json_none (json_get "answer" fields) in
      let qtype := default (JScalar (SStr "multiple_choice"))
                     (json_get "type" fields) in
      let issues :=
        if negb (truthy qtext) || negb (is_text qtext)
        then [invalid_question place] else [] in
      match opts with
      | JList (o :: os) =>
          let opts := o :: os in
          if equals_text qtype "multiple_choice" then
            letters ← normalize_mc_answer_to_letters (options_of_json opts)
                        (answer_of_json ans);
            if decide (letters = ∅)
            then Ok (issues ++ [mc_unparseable place opts])%list
            else Ok issues
          else if equals_text qtype "drag_and_drop" then
            match ans with
            | JList (_ :: _) => Ok issues
            | _ => Ok (issues ++ [dnd_answer_not_a_list place])%list
            end
          else Ok (issues ++ [unknown_type place qtype])%list
      | _ => Ok (issues ++ [invalid_options place])%list
      end
  | _ => Ok [not_an_object place]
  end.

(** [for idx, q in enumerate(questions, 1)], from entry [idx] on *)
Fixpoint validate_entries (topic : string) (idx : nat) (questions : list json)
    (acc : nat * list string) : result (nat * list string) :=
  match questions with
  | [] => Ok acc
  | q :: rest =>
      new ← validate_question topic idx q;
      validate_entries topic (S idx) rest
        ((acc.1 + 1)%nat, (acc.2 ++ new)%list)
  end.

(** [validate_questions], on the loaded bank: the dict's items. *)
Definition validate_questions (topics : list (string * json))
  : result (nat * list string) :=
  fold_result
    (λ acc t,
       match t.2 with
       | JList questions => validate_entries t.1 1 questions acc
       | _ => Ok (acc.1, (acc.2 ++ [topic_not_a_list t.1])%list)
       end)
    (0, []) topics.

(** The entries of the topics that are lists. *)
Definition count_entries (topics : list (string * json)) : nat :=
  sum_list ((λ t, match t.2 with
                  | JList questions => length questions
                  | _ => 0%nat
                  end) <$> topics).

(** A question the validation has nothing to say about: an object with a
    non-empty text as question and a non-empty list of options, which is
    either multiple choice (by default) with an answer that normalises to
    some letter, or drag and drop with a non-empty list as answer. *)
Definition well_formed_question (q : json) : Prop :=
  ∃ fields text opts,
    q = JObject fields
    ∧ json_get "question" fields = Some (JScalar (SStr text))
    ∧ text ≠ EmptyString
    ∧ json_get "options" fields = Some (JList opts)
    ∧ opts ≠ []
    ∧ (((json_get "type" fields = None
         ∨ json_get "type" fields = Some (JScalar (SStr "multiple_choice")))
        ∧ ∃ letters,
            normalize_mc_answer_to_letters (options_of_json opts)
              (answer_of_json (default json_none (json_get "answer" fields)))
            = Ok letters
            ∧ letters ≠ ∅)
       ∨ (json_get "type" fields = Some (JScalar (SStr "drag_and_drop"))
          ∧ ∃ items, json_get "answer" fields = Some (JList items)
                     ∧ items ≠ [])).

Definition well_formed_bank (topics : list (string * json)) : Prop :=
  Forall (λ t, ∃ questions, t.2 = JList questions
                            ∧ Forall well_formed_question questions) topics.

Definition sample_json_question (text : string) (options : list string)
    (ans : string) : json :=
  JObject [("question", JScalar (SStr text));
           ("options", JList (JScalar ∘ SStr <$> options));
           ("answer", JScalar (SStr ans))].

(** One topic with two multiple-choice questions, answers "B" and "Foo". *)
Definition sample_json_bank : list (string * json) :=
  [("Topic 1",
    JList [sample_json_question "First?" ["Foo"; "Bar"] "B";
           sample_json_question "Second?" ["Foo"; "Bar"] "Foo"])].

(** * Properties *)

(** Decidable closed facts, by evaluation. *)
Ltac by_compute := apply (bool_decide_unpack _); vm_compute; exact I.
Ltac by_compute_eq := vm_compute; reflexivity.

(** ** The result monad *)

Lemma bind_ok {A B} (f : A → result B) a : Ok a ≫= f = f a.
Proof. reflexivity. Qed.

Lemma fold_result_ok {A B} (f : B → A → result B) (g : B → A → B) acc l :
  (∀ b x, f b x = Ok (g b x)) → fold_result f acc l = Ok (foldl g acc l).
Proof.
  intros Hf. revert acc.
  induction l as [|x l IH]; intros acc; simpl; [done|].
  rewrite Hf. simpl. apply IH.
Qed.

Lemma map_result_ok {A B} (f : A → result B) (g : A → B) l :
  (∀ x, x ∈ l → f x = Ok (g x)) → map_result f l = Ok (g <$> l).
Proof.
  induction l as [|x l IH]; intros Hf; simpl; [done|].
  rewrite Hf by left. simpl.
  rewrite IH; [done|]. intros y Hy. apply Hf. by right.
Qed.

(** ** Strings *)

Lemma lstrip_head s c r : lstrip s = String c r → is_space c = false.
Proof.
  induction s as [|d s IH]; simpl; [done|].
  destruct (is_space d) eqn:Hd; [done|]. by intros [= <- _].
Qed.

Lemma rstrip_chars_head p s c r :
  rstrip_chars p s = String c r → ∃ r', s = String c r'.
Proof.
  destruct s as [|d s]; simpl; [done|].
  destruct (rstrip_chars p s); [destruct (p d)|]; intros [=]; subst; eauto.
Qed.

(** A stripped token does not start with whitespace. *)
Lemma strip_head s c r : strip s = String c r → is_space c = false.
Proof.
  unfold strip. intros H.
  apply rstrip_chars_head in H as [r' H]. by eapply lstrip_head.
Qed.

Lemma split_go_word w s : w ≠ EmptyString → split_go w s ≠ [].
Proof.
  revert w. induction s as [|c s IH]; intros w Hw; simpl.
  - by destruct w.
  - destruct (is_space c).
    + by destruct w.
    + apply IH. by destruct w.
Qed.

(** [s.split()[0]] exists as soon as [s] starts with a character that is
    not whitespace. *)
Lemma split_first s c r :
  s = String c r → is_space c = false →
  ∃ w, list_index (split s) 0 = Ok w.
Proof.
  intros -> Hc. unfold split. cbn [split_go]. rewrite Hc.
  change (String.append EmptyString (String c EmptyString))
    with (String c EmptyString).
  assert (split_go (String c EmptyString) r ≠ []) as Hne
    by by apply split_go_word.
  destruct (split_go (String c EmptyString) r) as [|w ws]; [done|].
  exists w. reflexivity.
Qed.

(** ** Dictionaries *)

Lemma dict_of_pairs_fold_is_Some {V} (kvs : list (string * V))
    (m : gmap string V) k :
  is_Some (foldl (λ m kv, <[kv.1 := kv.2]> m) m kvs !! k)
  ↔ is_Some (m !! k) ∨ k ∈ kvs.*1.
Proof.
  revert m. induction kvs as [|[k' v] kvs IH]; intros m; simpl.
  - rewrite elem_of_nil. tauto.
  - rewrite IH, elem_of_cons, lookup_insert_is_Some. split.
    + intros [[->|[_ ?]]|?]; auto.
    + intros [?|[->|?]]; auto.
      destruct (decide (k' = k)) as [->|]; auto.
Qed.

Lemma dict_of_pairs_is_Some {V} (kvs : list (string * V)) k :
  is_Some (dict_of_pairs kvs !! k) ↔ k ∈ kvs.*1.
Proof.
  unfold dict_of_pairs. rewrite dict_of_pairs_fold_is_Some, lookup_empty.
  split; [intros [[? [=]]|]; auto|auto].
Qed.

Lemma dict_of_pairs_fold_Some {V} (kvs : list (string * V))
    (m : gmap string V) k v :
  foldl (λ m kv, <[kv.1 := kv.2]> m) m kvs !! k = Some v →
  m !! k = Some v ∨ (k, v) ∈ kvs.
Proof.
  revert m. induction kvs as [|[k' v'] kvs IH]; intros m; simpl; [auto|].
  intros H. apply IH in H as [H|H].
  - apply lookup_insert_Some in H as [[-> ->]|[_ H]]; [right; left|auto].
  - right. by right.
Qed.

Lemma dict_of_pairs_Some {V} (kvs : list (string * V)) k v :
  dict_of_pairs kvs !! k = Some v → (k, v) ∈ kvs.
Proof.
  intros H. apply dict_of_pairs_fold_Some in H as [H|H]; [|done].
  by rewrite lookup_empty in H.
Qed.

(** ** Option letters *)

Lemma valid_letter_iff options L :
  valid_letter options L ↔ ∃ i, (i < length options)%nat ∧ L = chr (65 + i).
Proof.
  unfold valid_letter, _letters_map.
  rewrite dict_of_pairs_is_Some, <- list_fmap_compose, list_elem_of_fmap.
  split.
  - intros (i & -> & Hi). apply elem_of_seq in Hi. exists i. split; [lia|done].
  - intros (i & Hi & ->). exists i. split; [done|]. apply elem_of_seq. lia.
Qed.

Lemma option_to_letter_valid options s L :
  option_to_letter_map options !! s = Some L → valid_letter options L.
Proof.
  unfold option_to_letter_map. intros H.
  apply dict_of_pairs_Some, elem_of_lookup_imap in H as (i & opt & [= _ ->] & Hi).
  apply valid_letter_iff. exists i. split; [|done].
  by eapply lookup_lt_Some.
Qed.

(** ** The normaliser *)

Section Normalizer.

Variable options : list string.

#[local] Abbreviation letter_to_index := (_letters_map (length options)).
#[local] Abbreviation option_to_letter := (option_to_letter_map options).
#[local] Abbreviation tok := (token_letters options).

(** No token makes the loop body raise. *)
Lemma resolve_token_total raw :
  ∃ r, resolve_token letter_to_index option_to_letter raw = Ok r.
Proof.
  unfold resolve_token.
  destruct (decide (strip (py_str raw) = EmptyString)) as [|Hs]; [eauto|].
  destruct (strip (py_str raw)) as [|c r] eqn:E; [done|]. simpl.
  case_decide; [eauto|].
  destruct (option_to_letter !! String c r); [eauto|].
  destruct (split_first (String c r) c r eq_refl) as [w Hw].
  { by eapply strip_head. }
  rewrite Hw. simpl. case_decide; eauto.
Qed.

Lemma add_resolved_union letters r :
  add_resolved letters r = letters ∪ add_resolved ∅ r.
Proof. destruct r; simpl; set_solver. Qed.

Lemma normalize_items items :
  fold_result
    (λ letters raw,
       r ← resolve_token letter_to_index option_to_letter raw;
       Ok (add_resolved letters r))
    ∅ items
  = Ok (foldl (λ letters raw, letters ∪ tok raw) ∅ items).
Proof.
  apply fold_result_ok. intros letters raw. unfold token_letters.
  destruct (resolve_token_total raw) as [r ->]. simpl.
  by rewrite add_resolved_union.
Qed.

Lemma foldl_union_tokens (acc : gset string) items :
  foldl (λ letters raw, letters ∪ tok raw) acc items
  = acc ∪ ⋃ (tok <$> items).
Proof.
  revert acc. induction items as [|raw items IH]; intros acc; simpl.
  - set_solver.
  - rewrite IH. set_solver.
Qed.

(** The set returned for a list of tokens is the union of what each token
    contributes. *)
Lemma normalize_list items :
  normalize_mc_answer_to_letters options (AList items)
  = Ok (⋃ (tok <$> items)).
Proof.
  unfold normalize_mc_answer_to_letters.
  rewrite normalize_items, foldl_union_tokens. f_equal. set_solver.
Qed.

(** A scalar other than [None] is treated as the one-item list. *)
Lemma normalize_scalar_as_list x :
  x ≠ SNone →
  normalize_mc_answer_to_letters options (AScalar x)
  = normalize_mc_answer_to_letters options (AList [x]).
Proof. by destruct x. Qed.

Lemma normalize_scalar x :
  x ≠ SNone →
  normalize_mc_answer_to_letters options (AScalar x) = Ok (tok x).
Proof.
  intros Hx. rewrite normalize_scalar_as_list, normalize_list by done.
  simpl. f_equal. set_solver.
Qed.

Lemma normalize_total ans :
  ∃ letters, normalize_mc_answer_to_letters options ans = Ok letters.
Proof.
  destruct ans as [x|items].
  - destruct (decide (x = SNone)) as [->|Hx]; [by exists ∅|].
    rewrite normalize_scalar by done. eauto.
  - rewrite normalize_list. eauto.
Qed.

Lemma token_letters_valid raw L :
  L ∈ tok raw → valid_letter options L.
Proof.
  unfold token_letters, resolve_token.
  destruct (decide (strip (py_str raw) = EmptyString)); [set_solver|].
  destruct (str_index0 (strip (py_str raw))) as [c|]; simpl; [|set_solver].
  case_decide as Hc; simpl.
  { intros H. assert (L = upper c) as -> by set_solver. exact Hc. }
  destruct (option_to_letter !! strip (py_str raw)) as [L'|] eqn:E; simpl.
  { intros H. assert (L = L') as -> by set_solver.
    by eapply option_to_letter_valid. }
  destruct (list_index (split (strip (py_str raw))) 0) as [w|]; simpl;
    [|set_solver].
  case_decide as Hw; simpl; [|set_solver].
  intros H.
  assert (L = upper (rstrip_chars is_dot_or_colon w)) as -> by set_solver.
  exact Hw.
Qed.

(** Every letter of a normalised answer is the letter of an option. *)
Lemma normalize_valid ans letters L :
  normalize_mc_answer_to_letters options ans = Ok letters →
  L ∈ letters → valid_letter options L.
Proof.
  destruct ans as [x|items].
  - destruct (decide (x = SNone)) as [->|Hx].
    + intros [= <-]. set_solver.
    + rewrite normalize_scalar by done. intros [= <-].
      apply token_letters_valid.
  - rewrite normalize_list. intros [= <-].
    rewrite elem_of_union_list. intros (X & HX & HL).
    apply list_elem_of_fmap in HX as (raw & -> & _).
    by eapply token_letters_valid.
Qed.

End Normalizer.

(** ** The order of [sorted] *)

Lemma str_le_cases s1 s2 :
  str_le s1 s2 ↔ s1 = s2 ∨ String_as_OT.lt s1 s2.
Proof.
  unfold str_le, String.leb.
  destruct (String.compare s1 s2) eqn:E.
  - apply String_as_OT.cmp_eq in E. split; auto.
  - apply String_as_OT.cmp_lt in E. split; auto.
  - split; [done|]. intros [->|H].
    + assert (String.compare s2 s2 = Eq) as E' by by apply String_as_OT.cmp_eq.
      congruence.
    + apply String_as_OT.cmp_lt in H. unfold String_as_OT.cmp in H. congruence.
Qed.

#[global] Instance str_le_trans : Transitive str_le.
Proof.
  intros s1 s2 s3. rewrite !str_le_cases.
  intros [->|H1] [->|H2]; auto.
  right. by eapply String_as_OT.lt_trans.
Qed.

#[global] Instance str_le_total : Total str_le.
Proof. intros s1 s2. apply String.leb_total. Qed.

#[global] Instance str_le_antisym : AntiSymm eq str_le.
Proof. intros s1 s2. apply String.leb_antisym. Qed.

Lemma chr_le i j : (i < j)%nat → (j < 256)%nat → str_le (chr i) (chr j).
Proof.
  intros Hij Hj. apply str_le_cases. right.
  apply String_as_OT.lts_head.
  rewrite !nat_ascii_embedding by lia. done.
Qed.

Lemma chr_inj i j : (i < 256)%nat → (j < 256)%nat → chr i = chr j → i = j.
Proof.
  intros Hi Hj [= H].
  by rewrite <- (nat_ascii_embedding i), <- (nat_ascii_embedding j), H.
Qed.

Lemma ord_chr i : (i < 256)%nat → ord (chr i) = Ok (Z.of_nat i).
Proof. intros Hi. unfold ord, chr. by rewrite nat_ascii_embedding. Qed.

Lemma filter_seq_sorted (P : nat → Prop) `{∀ i, Decision (P i)} a n :
  StronglySorted lt (filter P (seq a n)).
Proof.
  revert a. induction n as [|n IH]; intros a; simpl; [constructor|].
  rewrite filter_cons. case_decide; [|apply IH].
  constructor; [apply IH|].
  apply Forall_forall. intros i Hi.
  apply list_elem_of_filter in Hi as [_ Hi]. apply elem_of_seq in Hi. lia.
Qed.

Lemma chr_sorted (l : list nat) :
  StronglySorted lt l → Forall (λ i, 65 + i < 256)%nat l →
  StronglySorted str_le ((λ i, chr (65 + i)) <$> l).
Proof.
  induction 1 as [|i l Hl IH Hi]; intros Hb; simpl; [constructor|].
  apply Forall_cons in Hb as [Hbi Hb].
  constructor; [by apply IH|].
  rewrite Forall_fmap. rewrite Forall_forall in Hb.
  apply Forall_forall. intros j Hj. simpl.
  rewrite Forall_forall in Hi.
  apply chr_le; [specialize (Hi j Hj); lia|by apply Hb].
Qed.

Lemma sorted_letters options (letters : gset string) :
  letters_fit options →
  (∀ L, L ∈ letters → valid_letter options L) →
  sorted (elements letters)
  = (λ i, chr (65 + i)) <$> letter_indices options letters.
Proof.
  intros Hfit Hvalid. unfold sorted, letter_indices, letters_fit in *.
  apply (StronglySorted_unique str_le).
  - apply StronglySorted_merge_sort; apply _.
  - apply chr_sorted; [apply filter_seq_sorted|].
    apply Forall_forall. intros i Hi.
    apply list_elem_of_filter in Hi as [_ Hi]. apply elem_of_seq in Hi. lia.
  - rewrite merge_sort_Permutation. apply NoDup_Permutation.
    + apply NoDup_elements.
    + apply NoDup_fmap_2_strong; [|apply NoDup_filter, NoDup_seq].
      intros i j Hi Hj Hij.
      apply list_elem_of_filter in Hi as [_ Hi]. apply elem_of_seq in Hi.
      apply list_elem_of_filter in Hj as [_ Hj]. apply elem_of_seq in Hj.
      apply chr_inj in Hij; lia.
    + intros L. rewrite elem_of_elements, list_elem_of_fmap. split.
      * intros HL. pose proof (Hvalid L HL) as (i & Hi & ->)%valid_letter_iff.
        exists i. split; [done|]. apply list_elem_of_filter.
        split; [done|]. apply elem_of_seq. lia.
      * intros (i & -> & Hi). by apply list_elem_of_filter in Hi as [Hi _].
Qed.

Lemma list_index_nat {A} (l : list A) i x :
  l !! i = Some x → list_index l (Z.of_nat i) = Ok x.
Proof.
  intros H. unfold list_index.
  destruct (Z.ltb_spec (Z.of_nat i) 0) as [|_]; [lia|].
  destruct (Z.ltb_spec (Z.of_nat i) 0) as [|_]; [lia|].
  by rewrite Nat2Z.id, H.
Qed.

Lemma map_result_fmap_ok {A B C} (f : B → result C) (h : A → B) (g : A → C) l :
  (∀ x, x ∈ l → f (h x) = Ok (g x)) → map_result f (h <$> l) = Ok (g <$> l).
Proof.
  induction l as [|x l IH]; intros Hf; [done|].
  rewrite !fmap_cons. cbn [map_result].
  rewrite Hf by left. rewrite IH; [done|].
  intros y Hy. apply Hf. by right.
Qed.

Lemma format_correct_answer_spec options (letters : gset string) :
  letters_fit options →
  (∀ L, L ∈ letters → valid_letter options L) →
  letters ≠ ∅ →
  format_correct_answer options letters
  = Ok (letters_with_texts options letters).
Proof.
  intros Hfit Hvalid Hne. unfold format_correct_answer, letters_with_texts.
  case_decide; [done|].
  rewrite (sorted_letters options) by done.
  erewrite map_result_fmap_ok; [done|].
  intros i Hi. cbv beta.
  apply list_elem_of_filter in Hi as [_ Hi]. apply elem_of_seq in Hi.
  unfold letters_fit in Hfit.
  rewrite ord_chr, bind_ok by lia.
  replace (Z.of_nat (65 + i) - 65)%Z with (Z.of_nat i) by lia.
  case_decide; [|lia].
  destruct (lookup_lt_is_Some_2 options i) as [opt Hopt]; [lia|].
  by rewrite (list_index_nat _ _ _ Hopt), bind_ok, Hopt.
Qed.

(** ** Normalisation: order, duplicates, shadowing *)

Lemma normalize_perm options (l1 l2 : list scalar) :
  l1 ≡ₚ l2 →
  normalize_mc_answer_to_letters options (AList l1)
  = normalize_mc_answer_to_letters options (AList l2).
Proof.
  intros Hp. rewrite !normalize_list. f_equal.
  apply set_eq. intros L. rewrite !elem_of_union_list.
  split; intros (X & HX & HL); exists X; split; try done.
  - by rewrite <- Hp.
  - by rewrite Hp.
Qed.

Lemma normalize_same_elements options (l1 l2 : list scalar) :
  (∀ x, x ∈ l1 ↔ x ∈ l2) →
  normalize_mc_answer_to_letters options (AList l1)
  = normalize_mc_answer_to_letters options (AList l2).
Proof.
  intros Hel. rewrite !normalize_list. f_equal.
  apply set_eq. intros L. rewrite !elem_of_union_list.
  split; intros (X & (x & -> & Hx)%list_elem_of_fmap & HL);
    exists (token_letters options x); (split; [|done]);
    apply list_elem_of_fmap; exists x; (split; [done|]); by apply Hel.
Qed.

(** C8: normalisation does not depend on the order of the tokens:
    [normalize(opts, [a, b]) == normalize(opts, [b, a])] for any two tokens,
    any two concatenated token lists may be swapped, and a token given twice
    contributes its letter once. *)
Theorem normalize_order_independent options (a b : scalar)
    (l1 l2 : list scalar) :
  normalize_mc_answer_to_letters options (AList [a; b])
  = normalize_mc_answer_to_letters options (AList [b; a])
  ∧ normalize_mc_answer_to_letters options (AList (l1 ++ l2)%list)
    = normalize_mc_answer_to_letters options (AList (l2 ++ l1)%list)
  ∧ normalize_mc_answer_to_letters options (AList (a :: a :: l1))
    = normalize_mc_answer_to_letters options (AList (a :: l1))
  ∧ ∃ letters,
      normalize_mc_answer_to_letters options (AList [a; b]) = Ok letters
      ∧ letters = token_letters options a ∪ token_letters options b.
Proof.
  split; [|split; [|split]].
  - apply normalize_perm. constructor.
  - apply normalize_perm. apply Permutation_app_comm.
  - apply normalize_same_elements. intros x. set_solver.
  - eexists. split; [apply normalize_list|]. simpl. set_solver.
Qed.

Lemma resolve_leading options raw c rest :
  strip (py_str raw) = String c rest →
  valid_letter options (upper (String c EmptyString)) →
  resolve_token (_letters_map (length options)) (option_to_letter_map options)
    raw = Ok (LeadingLetter (upper (String c EmptyString))).
Proof.
  intros Hs Hv. unfold resolve_token. rewrite Hs.
  case_decide; [done|]. cbn [str_index0]. rewrite bind_ok.
  by case_decide.
Qed.

(** C10: the leading-letter rule shadows the exact-text rule.  When the
    first character of the trimmed token, uppercased, is the letter of an
    option, the token resolves to that letter by Case 1, whatever option text
    it may equal; so it never resolves by the exact-text rule. *)
Theorem leading_letter_shadows_exact_text options raw c rest :
  strip (py_str raw) = String c rest →
  valid_letter options (upper (String c EmptyString)) →
  resolve_token (_letters_map (length options)) (option_to_letter_map options)
    raw = Ok (LeadingLetter (upper (String c EmptyString)))
  ∧ normalize_mc_answer_to_letters options (AList [raw])
    = Ok {[upper (String c EmptyString)]}
  ∧ ∀ L, resolve_token (_letters_map (length options))
           (option_to_letter_map options) raw ≠ Ok (ExactText L).
Proof.
  intros Hs Hv.
  pose proof (resolve_leading options raw c rest Hs Hv) as Hr.
  split; [done|]. split.
  - rewrite normalize_list. unfold token_letters. simpl. rewrite Hr. simpl.
    f_equal. set_solver.
  - intros L. by rewrite Hr.
Qed.

(** Options ["Bar"; "Apple"]: the token "Bar" is the text of option A, and
    resolves to B. *)
Lemma leading_letter_shadows_exact_text_witness :
  option_to_letter_map ["Bar"; "Apple"] !! "Bar" = Some "A"
  ∧ resolve_token (_letters_map 2) (option_to_letter_map ["Bar"; "Apple"])
      (SStr "Bar") = Ok (LeadingLetter "B")
  ∧ normalize_mc_answer_to_letters ["Bar"; "Apple"] (AList [SStr "Bar"])
    = Ok {["B"]}.
Proof.
  split; [by vm_compute|].
  destruct (leading_letter_shadows_exact_text ["Bar"; "Apple"] (SStr "Bar")
              "B"%char "ar") as (H1 & H2 & _).
  - reflexivity.
  - by_compute.
  - split; [exact H1|exact H2].
Defined.

(** ** The multiple-choice matcher *)

Lemma elements_letters options (letters : gset string) :
  letters_fit options →
  (∀ L, L ∈ letters → valid_letter options L) →
  elements letters ≡ₚ (λ i, chr (65 + i)) <$> letter_indices options letters.
Proof.
  intros Hfit Hvalid.
  rewrite <- (sorted_letters options letters Hfit Hvalid).
  unfold sorted. by rewrite merge_sort_Permutation.
Qed.

(** [options[ord(L) - 65]] for the letter of option [i]. *)
Lemma option_of_letter options i :
  letters_fit options → (i < length options)%nat →
  (c ← ord (chr (65 + i)); list_index options (c - 65)%Z)
  = Ok (default "" (options !! i)).
Proof.
  unfold letters_fit. intros Hfit Hi.
  rewrite ord_chr, bind_ok by lia.
  replace (Z.of_nat (65 + i) - 65)%Z with (Z.of_nat i) by lia.
  destruct (lookup_lt_is_Some_2 options i) as [opt Hopt]; [lia|].
  by rewrite (list_index_nat _ _ _ Hopt), Hopt.
Qed.

Lemma map_result_perm {A B} (f : A → result B) l1 l2 ys :
  l1 ≡ₚ l2 → map_result f l2 = Ok ys →
  ∃ xs, map_result f l1 = Ok xs ∧ xs ≡ₚ ys.
Proof.
  intros Hp. revert ys.
  induction Hp as [|x l1 l2 Hp IH|x y l|l1 l2 l3 Hp1 IH1 Hp2 IH2]; intros ys.
  - intros [= <-]. by exists [].
  - cbn [map_result]. destruct (f x) as [b|]; [|done]. rewrite !bind_ok.
    destruct (map_result f l2) as [bs|] eqn:E; [|done]. rewrite bind_ok.
    intros [= <-]. destruct (IH bs eq_refl) as (xs & -> & Hxs).
    exists (b :: xs). rewrite bind_ok. split; [done|]. by constructor.
  - cbn [map_result].
    destruct (f x) as [b|]; [|by destruct (f y)].
    destruct (f y) as [b'|]; [|done]. rewrite !bind_ok.
    destruct (map_result f l) as [bs|]; [|done]. rewrite !bind_ok.
    intros [= <-]. exists (b' :: b :: bs). split; [done|]. constructor.
  - intros H3. destruct (IH2 ys H3) as (zs & H2 & Hzs).
    destruct (IH1 zs H2) as (xs & H1 & Hxs).
    exists xs. split; [done|]. by etrans.
Qed.

(** The set comprehension [{options[ord(L) - 65] for L in selected_letters}]
    succeeds on valid letters and collects the texts of the selected
    options. *)
Lemma selected_texts_ok options (selected : gset string) :
  letters_fit options →
  (∀ L, L ∈ selected → valid_letter options L) →
  ∃ texts,
    map_result (λ L, c ← ord L; list_index options (c - 65)%Z)
      (elements selected) = Ok texts
    ∧ list_to_set texts = selected_option_texts options selected.
Proof.
  intros Hfit Hvalid.
  destruct (map_result_perm
              (λ L, c ← ord L; list_index options (c - 65)%Z)
              (elements selected)
              ((λ i, chr (65 + i)) <$> letter_indices options selected)
              ((λ i, default "" (options !! i))
                 <$> letter_indices options selected))
    as (texts & Ht & Hp).
  - by apply elements_letters.
  - apply map_result_fmap_ok. intros i Hi. cbv beta.
    apply list_elem_of_filter in Hi as [_ Hi]. apply elem_of_seq in Hi.
    apply option_of_letter; [done|lia].
  - exists texts. split; [done|]. unfold selected_option_texts.
    apply set_eq. intros t. rewrite !elem_of_list_to_set. by rewrite Hp.
Qed.

Section MatcherProperties.

Variable set_order : gset scalar → list scalar.
Hypothesis set_order_perm : ∀ X, set_order X ≡ₚ elements X.

Lemma set_order_elem X x : x ∈ set_order X ↔ x ∈ X.
Proof. by rewrite set_order_perm, elem_of_elements. Qed.

Lemma set_order_singleton x : set_order {[x]} = [x].
Proof.
  apply Permutation_singleton_r.
  by rewrite set_order_perm, elements_singleton.
Qed.

(** Normalising the fallback set gives what normalising the raw field
    gives, unless the raw field is [None]. *)
Lemma normalize_fallback_set options correct :
  correct ≠ AScalar SNone →
  normalize_mc_answer_to_letters options
    (AList (set_order (correct_value_set correct)))
  = normalize_mc_answer_to_letters options correct.
Proof.
  intros Hc. destruct correct as [x|l]; simpl.
  - rewrite set_order_singleton.
    symmetry. apply normalize_scalar_as_list. congruence.
  - apply normalize_same_elements. intros x.
    by rewrite set_order_elem, elem_of_list_to_set.
Qed.

Lemma map_result_as_text texts :
  map_result as_text (SStr <$> texts) = Ok texts.
Proof.
  rewrite (map_result_fmap_ok _ _ id); [by rewrite list_fmap_id|done].
Qed.

Lemma join_values_texts sep texts :
  join_values sep (SStr <$> texts) = Ok (join sep texts).
Proof. unfold join_values. by rewrite map_result_as_text. Qed.

Lemma join_values_not_text sep x :
  (∀ s, x ≠ SStr s) → join_values sep [x] = Raise TypeError.
Proof. intros Hx. destruct x; [done|done|]. by destruct (Hx s). Qed.

(** The two paths of [is_mc_selection_correct]. *)
Lemma is_mc_primary options correct selected letters :
  normalize_mc_answer_to_letters options correct = Ok letters →
  letters ≠ ∅ →
  is_mc_selection_correct set_order options correct selected
  = (display ← format_correct_answer options letters;
     Ok (bool_decide (selected = letters), display)).
Proof.
  intros Hn Hne. unfold is_mc_selection_correct.
  rewrite Hn, bind_ok. by case_decide.
Qed.

Lemma is_mc_fallback options correct selected tmp :
  letters_fit options →
  normalize_mc_answer_to_letters options correct = Ok ∅ →
  (∀ L, L ∈ selected → valid_letter options L) →
  normalize_mc_answer_to_letters options
    (AList (set_order (correct_value_set correct))) = Ok tmp →
  is_mc_selection_correct set_order options correct selected
  = (display ← (if decide (tmp ≠ ∅)
                then format_correct_answer options tmp
                else join_values ", "
                       (set_order (correct_value_set correct)));
     Ok (bool_decide
           (set_map SStr (selected_option_texts options selected)
            = correct_value_set correct),
         display)).
Proof.
  intros Hfit Hn Hvalid Htmp. unfold is_mc_selection_correct.
  rewrite Hn, bind_ok. case_decide; [done|].
  destruct (selected_texts_ok options selected Hfit Hvalid)
    as (texts & -> & Htexts).
  rewrite bind_ok. unfold texts_equal. rewrite Htexts.
  fold (correct_value_set correct). by rewrite Htmp, bind_ok.
Qed.

End MatcherProperties.

Lemma text_valued_set (set_order : gset scalar → list scalar) correct :
  (∀ X, set_order X ≡ₚ elements X) →
  text_valued correct →
  correct ≠ AScalar SNone
  ∧ ∃ texts, set_order (correct_value_set correct) = SStr <$> texts.
Proof.
  intros Hperm Htext. split; [by intros ->|].
  assert (Forall (λ x, ∃ s, x = SStr s)
            (set_order (correct_value_set correct))) as Hall.
  { apply Forall_forall. intros x Hx.
    apply (set_order_elem set_order Hperm) in Hx.
    destruct correct as [[| |s]|l]; cbn [text_valued correct_value_set] in *;
      try done.
    - apply elem_of_singleton in Hx as ->. eauto.
    - apply elem_of_list_to_set in Hx.
      by apply (proj1 (Forall_forall _ _) Htext). }
  induction Hall as [|x l [s ->] _ [texts ->]].
  - by exists [].
  - by exists (s :: texts).
Qed.

Lemma mc_fallback_set_texts (set_order : gset scalar → list scalar)
    (Hperm : ∀ X, set_order X ≡ₚ elements X) options correct selected texts :
  letters_fit options →
  normalize_mc_answer_to_letters options correct = Ok ∅ →
  (∀ L, L ∈ selected → valid_letter options L) →
  set_order (correct_value_set correct) = SStr <$> texts →
  ∃ b, is_mc_selection_correct set_order options correct selected
       = Ok (b, join ", " texts).
Proof.
  intros Hfit Hn Hvalid Htexts.
  assert (correct ≠ AScalar SNone) as Hc.
  { intros ->. cbn [correct_value_set] in Htexts.
    rewrite (set_order_singleton set_order Hperm) in Htexts.
    by destruct texts. }
  pose proof (normalize_fallback_set set_order Hperm options correct Hc)
    as Htmp.
  rewrite Hn in Htmp.
  rewrite (is_mc_fallback set_order options correct selected ∅
             Hfit Hn Hvalid Htmp).
  destruct (decide ((∅ : gset string) ≠ ∅)) as [|_]; [done|].
  rewrite Htexts, join_values_texts, bind_ok. eauto.
Qed.

(** C1: when the correct-answer field normalises to a non-empty letter set,
    [is_mc_selection_correct] returns [True] exactly when the selected
    letter set equals that set, and its display lists every correct letter
    followed by ". " and the text of its option, in ascending letter order,
    joined by ", ". *)
Theorem mc_primary_path (set_order : gset scalar → list scalar) options
    correct selected letters :
  letters_fit options →
  normalize_mc_answer_to_letters options correct = Ok letters →
  letters ≠ ∅ →
  is_mc_selection_correct set_order options correct selected
  = Ok (bool_decide (selected = letters), letters_with_texts options letters).
Proof.
  intros Hfit Hn Hne.
  rewrite (is_mc_primary set_order options correct selected letters Hn Hne).
  rewrite format_correct_answer_spec; [done|done| |done].
  intros L. by eapply normalize_valid.
Qed.

(** Options ["Foo"; "Bar"; "Baz"] and correct "B": selected {"B"} gives
    (True, "B. Bar"), selected {"A"} gives (False, "B. Bar"). *)
Lemma mc_primary_path_witness :
  is_mc_selection_correct elements ["Foo"; "Bar"; "Baz"] (AScalar (SStr "B"))
    {["B"]} = Ok (true, "B. Bar")
  ∧ is_mc_selection_correct elements ["Foo"; "Bar"; "Baz"]
      (AScalar (SStr "B")) {["A"]} = Ok (false, "B. Bar").
Proof.
  split.
  - rewrite (mc_primary_path elements ["Foo"; "Bar"; "Baz"]
               (AScalar (SStr "B")) {["B"]} {["B"]}).
    + reflexivity.
    + unfold letters_fit. simpl. lia.
    + vm_compute. reflexivity.
    + by_compute.
  - rewrite (mc_primary_path elements ["Foo"; "Bar"; "Baz"]
               (AScalar (SStr "B")) {["A"]} {["B"]}).
    + reflexivity.
    + unfold letters_fit. simpl. lia.
    + vm_compute. reflexivity.
    + by_compute.
Defined.

(** C3, for a correct-answer field that is a text or a list of texts: when
    the field normalises to the empty set, the matcher returns, and it
    compares texts.  Its verdict is [True] exactly when the set of texts of
    the selected options equals the raw field taken as a set (a scalar being
    a singleton).  Normalising the fallback set gives the empty set again,
    and the display is the distinct raw texts, in the order in which the set
    is iterated, joined with ", ". *)
Theorem mc_fallback_path (set_order : gset scalar → list scalar) options
    correct selected :
  (∀ X, set_order X ≡ₚ elements X) →
  letters_fit options →
  text_valued correct →
  normalize_mc_answer_to_letters options correct = Ok ∅ →
  (∀ L, L ∈ selected → valid_letter options L) →
  ∃ texts,
    NoDup texts
    ∧ (∀ t, t ∈ texts ↔ SStr t ∈ correct_value_set correct)
    ∧ set_order (correct_value_set correct) = SStr <$> texts
    ∧ normalize_mc_answer_to_letters options
        (AList (set_order (correct_value_set correct))) = Ok ∅
    ∧ is_mc_selection_correct set_order options correct selected
      = Ok (bool_decide
              (set_map SStr (selected_option_texts options selected)
               = correct_value_set correct),
            join ", " texts).
Proof.
  intros Hperm Hfit Htext Hn Hvalid.
  destruct (text_valued_set set_order correct Hperm Htext)
    as (Hc & texts & Htexts).
  pose proof (normalize_fallback_set set_order Hperm options correct Hc)
    as Htmp.
  rewrite Hn in Htmp.
  exists texts. split; [|split; [|split; [done|split; [done|]]]].
  - apply (NoDup_fmap_1 SStr). rewrite <- Htexts, Hperm.
    apply NoDup_elements.
  - intros t. rewrite <- (set_order_elem set_order Hperm), Htexts.
    rewrite list_elem_of_fmap. split; [by eauto|].
    by intros (t' & [= ->] & Ht).
  - rewrite (is_mc_fallback set_order options correct selected ∅
               Hfit Hn Hvalid Htmp).
    destruct (decide ((∅ : gset string) ≠ ∅)) as [|_]; [done|].
    by rewrite Htexts, join_values_texts, bind_ok.
Qed.

(** Options ["Foo"; "Bar"] and the raw text "zzz", which is no option: no
    selection is correct, and the display is "zzz". *)
Lemma mc_fallback_path_witness :
  is_mc_selection_correct elements ["Foo"; "Bar"] (AScalar (SStr "zzz"))
    {["A"]} = Ok (false, "zzz").
Proof.
  destruct (mc_fallback_path elements ["Foo"; "Bar"] (AScalar (SStr "zzz"))
              {["A"]}) as (texts & _ & _ & Htexts & _ & H).
  - done.
  - unfold letters_fit. simpl. lia.
  - exact I.
  - vm_compute. reflexivity.
  - intros L HL. apply elem_of_singleton in HL as ->. by_compute.
  - rewrite H. clear H.
    assert (SStr <$> texts = [SStr "zzz"]) as Heq
      by (rewrite <- Htexts; by_compute_eq).
    destruct texts as [|t [|t' texts]];
      [discriminate Heq| |discriminate Heq].
    injection Heq as ->. by_compute_eq.
Defined.

(** Options ["Foo"; "Bar"] and the raw field ["zzz", 5]: the field
    normalises to the empty set, and the matcher returns neither a verdict
    nor a display. *)
Lemma mc_fallback_path_non_text_field :
  normalize_mc_answer_to_letters ["Foo"; "Bar"] (AList [SStr "zzz"; SInt 5])
  = Ok ∅
  ∧ ¬ (∃ is_correct display,
         is_mc_selection_correct elements ["Foo"; "Bar"]
           (AList [SStr "zzz"; SInt 5]) {["A"]} = Ok (is_correct, display)).
Proof.
  split; [by_compute_eq|].
  assert (is_mc_selection_correct elements ["Foo"; "Bar"]
            (AList [SStr "zzz"; SInt 5]) {["A"]} = Raise TypeError) as H
    by by_compute_eq.
  intros (b & d & Hb). rewrite H in Hb. discriminate Hb.
Qed.

(** C4, as the code has it, for a correct-answer field that is a text or a
    list of texts: when both normalisation attempts give the empty set, the
    matcher returns and its display is the distinct raw texts, in the order
    in which the set is iterated, joined with ", ".  "Unknown" is what
    [format_correct_answer] alone returns, for an empty letter set. *)
Theorem mc_unparseable_display (set_order : gset scalar → list scalar)
    options correct selected :
  (∀ X, set_order X ≡ₚ elements X) →
  letters_fit options →
  text_valued correct →
  normalize_mc_answer_to_letters options correct = Ok ∅ →
  normalize_mc_answer_to_letters options
    (AList (set_order (correct_value_set correct))) = Ok ∅ →
  (∀ L, L ∈ selected → valid_letter options L) →
  (∃ is_correct texts,
     SStr <$> texts ≡ₚ elements (correct_value_set correct)
     ∧ is_mc_selection_correct set_order options correct selected
       = Ok (is_correct, join ", " texts))
  ∧ format_correct_answer options ∅ = Ok "Unknown".
Proof.
  intros Hperm Hfit Htext Hn Htmp Hvalid. split; [|reflexivity].
  destruct (text_valued_set set_order correct Hperm Htext)
    as (_ & texts & Htexts).
  destruct (mc_fallback_set_texts set_order Hperm options correct selected
              texts Hfit Hn Hvalid Htexts) as [b Hb].
  exists b, texts. split; [|exact Hb]. by rewrite <- Htexts.
Qed.

(** Options ["Foo"; "Bar"] and the raw list ["zzz", "zzz"]: the display is
    "zzz". *)
Lemma mc_unparseable_display_witness :
  ∃ is_correct,
    is_mc_selection_correct elements ["Foo"; "Bar"]
      (AList [SStr "zzz"; SStr "zzz"]) {["B"]} = Ok (is_correct, "zzz").
Proof.
  destruct (mc_unparseable_display elements ["Foo"; "Bar"]
              (AList [SStr "zzz"; SStr "zzz"]) {["B"]})
    as [(b & texts & Hp & H) _].
  - done.
  - unfold letters_fit. simpl. lia.
  - repeat constructor; eauto.
  - by_compute_eq.
  - by_compute_eq.
  - intros L HL. apply elem_of_singleton in HL as ->. by_compute.
  - exists b. rewrite H. clear H. do 2 f_equal.
    assert (elements (correct_value_set (AList [SStr "zzz"; SStr "zzz"]))
            = [SStr "zzz"]) as He by by_compute_eq.
    rewrite He in Hp. apply Permutation_singleton_r in Hp.
    destruct texts as [|t [|t' texts]];
      [discriminate Hp| |discriminate Hp].
    injection Hp as ->. reflexivity.
Defined.

(** Options ["Foo"; "Bar"] and the raw text "zzz": both normalisation
    attempts give the empty set, and the display is "zzz", not "Unknown". *)
Lemma mc_unparseable_display_is_not_Unknown :
  normalize_mc_answer_to_letters ["Foo"; "Bar"] (AScalar (SStr "zzz")) = Ok ∅
  ∧ normalize_mc_answer_to_letters ["Foo"; "Bar"]
      (AList (elements (correct_value_set (AScalar (SStr "zzz"))))) = Ok ∅
  ∧ is_mc_selection_correct elements ["Foo"; "Bar"] (AScalar (SStr "zzz"))
      {["A"]} = Ok (false, "zzz")
  ∧ ¬ (∃ b, is_mc_selection_correct elements ["Foo"; "Bar"]
              (AScalar (SStr "zzz")) {["A"]} = Ok (b, "Unknown")).
Proof.
  split; [by_compute_eq|]. split; [by_compute_eq|].
  assert (is_mc_selection_correct elements ["Foo"; "Bar"]
            (AScalar (SStr "zzz")) {["A"]} = Ok (false, "zzz")) as H
    by by_compute_eq.
  split; [exact H|]. intros [b Hb]. rewrite H in Hb. discriminate Hb.
Qed.

(** C7: the normaliser returns a set for every answer value.  The matcher
    does not: on a scalar correct value that is not text and resolves to no
    letter ([None], or a number), the fallback reaches
    [", ".join(correct_set)] with a value that is not a [str], and raises
    [TypeError]. *)
Theorem mc_non_text_answer_raises (set_order : gset scalar → list scalar)
    options (x : scalar) selected :
  (∀ X, set_order X ≡ₚ elements X) →
  letters_fit options →
  (∀ L, L ∈ selected → valid_letter options L) →
  (∀ s, x ≠ SStr s) →
  token_letters options x = ∅ →
  (∀ ans, ∃ letters, normalize_mc_answer_to_letters options ans = Ok letters)
  ∧ normalize_mc_answer_to_letters options (AScalar x) = Ok ∅
  ∧ is_mc_selection_correct set_order options (AScalar x) selected
    = Raise TypeError.
Proof.
  intros Hperm Hfit Hvalid Hx Htok.
  split; [apply normalize_total|].
  assert (normalize_mc_answer_to_letters options (AScalar x) = Ok ∅) as Hn.
  { destruct (decide (x = SNone)) as [->|Hne]; [done|].
    by rewrite normalize_scalar, Htok. }
  split; [exact Hn|].
  assert (normalize_mc_answer_to_letters options
            (AList (set_order (correct_value_set (AScalar x)))) = Ok ∅)
    as Htmp.
  { cbn [correct_value_set].
    rewrite (set_order_singleton set_order Hperm), normalize_list.
    simpl. rewrite Htok. by f_equal. }
  rewrite (is_mc_fallback set_order options (AScalar x) selected ∅
             Hfit Hn Hvalid Htmp).
  destruct (decide ((∅ : gset string) ≠ ∅)) as [|_]; [done|].
  cbn [correct_value_set]. rewrite (set_order_singleton set_order Hperm).
  by rewrite join_values_not_text.
Qed.

(** Options ["Foo"; "Bar"], a null answer, option A selected. *)
Lemma mc_non_text_answer_raises_witness :
  normalize_mc_answer_to_letters ["Foo"; "Bar"] (AScalar SNone) = Ok ∅
  ∧ is_mc_selection_correct elements ["Foo"; "Bar"] (AScalar SNone) {["A"]}
    = Raise TypeError.
Proof.
  destruct (mc_non_text_answer_raises elements ["Foo"; "Bar"] SNone {["A"]})
    as (_ & H1 & H2).
  - done.
  - unfold letters_fit. simpl. lia.
  - intros L HL. apply elem_of_singleton in HL as ->. by_compute.
  - done.
  - by_compute_eq.
  - split; [exact H1|exact H2].
Defined.

(** ** Ordered selection *)

#[global] Instance SStr_inj : Inj eq eq SStr.
Proof. by intros s1 s2 [= ->]. Qed.

Lemma positionally_equal_iff selected expected :
  positionally_equal selected expected ↔ SStr <$> selected = expected.
Proof.
  unfold positionally_equal. split.
  - intros [Hlen Hpos].
    apply (list_eq_same_length _ _ (length expected)); [done| |].
    + by rewrite length_fmap.
    + intros i x y _ Hx Hy. rewrite list_lookup_fmap in Hx.
      destruct (selected !! i) as [s|] eqn:Hs; [|done].
      injection Hx as <-. by eapply Hpos.
  - intros <-. split; [by rewrite length_fmap|].
    intros i x y Hx. rewrite list_lookup_fmap, Hx. by intros [= <-].
Qed.

(** The correct branch of the drag-and-drop [submit] is taken exactly when
    the selected texts are the expected values. *)
Lemma dnd_submit_correct_iff question_data selected st :
  dnd_submit question_data selected st
  = Ok (mark_question_correct question_data (add_correct st),
        "Correct!" ++ nl ++ "Explanation: "
        ++ default "" (q_explanation question_data))
  ↔ SStr <$> selected = expected_sequence (q_answer question_data).
Proof.
  unfold dnd_submit. case_bool_decide as Heq; [done|].
  split; [|done].
  destruct (join_values _ _) as [shown|]; [|done]. rewrite bind_ok.
  intros [=].
Qed.

Lemma dnd_submit_wrong question_data selected st texts :
  expected_sequence (q_answer question_data) = SStr <$> texts →
  selected ≠ texts →
  dnd_submit question_data selected st
  = Ok (mark_question_wrong question_data st,
        "Wrong!" ++ nl ++ "Correct sequence: " ++ join ", " texts ++ nl
        ++ "Explanation: " ++ default "" (q_explanation question_data)).
Proof.
  intros Hexp Hne. unfold dnd_submit. rewrite Hexp.
  rewrite bool_decide_eq_false_2.
  - by rewrite join_values_texts.
  - intros Heq. apply Hne. revert Heq. apply (inj (fmap SStr)).
Qed.

(** C6: the drag-and-drop [submit] counts the answer as correct exactly
    when the selected sequence and the correct one have equal length and
    agree at every index, entries compared whole; a correct value that is
    not a list counts as the sequence of that one value.  When the answer is
    not correct, the message shows the correct texts joined with ", ". *)
Theorem dnd_positional_equality question_data selected st :
  let explanation := default "" (q_explanation question_data) in
  let correct_branch :=
    Ok (mark_question_correct question_data (add_correct st),
        "Correct!" ++ nl ++ "Explanation: " ++ explanation) in
  let wrong_branch texts :=
    Ok (mark_question_wrong question_data st,
        "Wrong!" ++ nl ++ "Correct sequence: " ++ join ", " texts ++ nl
        ++ "Explanation: " ++ explanation) in
  (∀ l, q_answer question_data = AList l →
     (dnd_submit question_data selected st = correct_branch
      ↔ positionally_equal selected l)
     ∧ ∀ texts, l = SStr <$> texts → ¬ positionally_equal selected l →
         dnd_submit question_data selected st = wrong_branch texts)
  ∧ (∀ x, q_answer question_data = AScalar x →
       (dnd_submit question_data selected st = correct_branch
        ↔ ∃ s, selected = [s] ∧ SStr s = x)
       ∧ ∀ t, x = SStr t → selected ≠ [t] →
           dnd_submit question_data selected st = wrong_branch [t]).
Proof.
  intros explanation correct_branch wrong_branch. split.
  - intros l Hl. split.
    + unfold correct_branch, explanation.
      rewrite dnd_submit_correct_iff, Hl. symmetry.
      apply positionally_equal_iff.
    + intros texts -> Hne. unfold wrong_branch, explanation.
      apply dnd_submit_wrong; [by rewrite Hl|].
      intros ->. by apply Hne, positionally_equal_iff.
  - intros x Hx. split.
    + unfold correct_branch, explanation.
      rewrite dnd_submit_correct_iff, Hx. cbn [expected_sequence]. split.
      * destruct selected as [|s [|s' selected]]; try done.
        intros [= <-]. by exists s.
      * by intros (s & -> & <-).
    + intros t -> Hne. unfold wrong_branch, explanation.
      apply dnd_submit_wrong; [by rewrite Hx|done].
Qed.

(** Correct sequence ["a|b"; "c"]: the same selection is correct; the
    selection ["a"; "b"], which splitting "a|b" at the bar would give, is
    not, and the message shows "a|b, c".  Correct value "a|b", not in a
    list: the selection ["a|b"] is correct, the selection ["a"; "b"] is not,
    and the message shows "a|b". *)
Lemma dnd_positional_equality_witness :
  (dnd_submit sample_sequence_question ["a|b"; "c"] (initial_state no_files)
   = Ok (mark_question_correct sample_sequence_question
           (add_correct (initial_state no_files)),
         "Correct!" ++ nl ++ "Explanation: ")
   ∧ dnd_submit sample_sequence_question ["a"; "b"] (initial_state no_files)
     = Ok (mark_question_wrong sample_sequence_question
             (initial_state no_files),
           "Wrong!" ++ nl ++ "Correct sequence: a|b, c" ++ nl
           ++ "Explanation: "))
  ∧ (dnd_submit sample_single_question ["a|b"] (initial_state no_files)
     = Ok (mark_question_correct sample_single_question
             (add_correct (initial_state no_files)),
           "Correct!" ++ nl ++ "Explanation: ")
     ∧ dnd_submit sample_single_question ["a"; "b"] (initial_state no_files)
       = Ok (mark_question_wrong sample_single_question
               (initial_state no_files),
             "Wrong!" ++ nl ++ "Correct sequence: a|b" ++ nl
             ++ "Explanation: ")).
Proof.
  split.
  - destruct (dnd_positional_equality sample_sequence_question ["a|b"; "c"]
                (initial_state no_files)) as [H1 _].
    destruct (dnd_positional_equality sample_sequence_question ["a"; "b"]
                (initial_state no_files)) as [H2 _].
    destruct (H1 [SStr "a|b"; SStr "c"] eq_refl) as [H1' _].
    destruct (H2 [SStr "a|b"; SStr "c"] eq_refl) as [H2' H2''].
    split.
    + apply H1'. apply positionally_equal_iff. reflexivity.
    + apply (H2'' ["a|b"; "c"]); [reflexivity|].
      intros Heq%positionally_equal_iff. discriminate Heq.
  - destruct (dnd_positional_equality sample_single_question ["a|b"]
                (initial_state no_files)) as [_ H1].
    destruct (dnd_positional_equality sample_single_question ["a"; "b"]
                (initial_state no_files)) as [_ H2].
    destruct (H1 (SStr "a|b") eq_refl) as [H1' _].
    destruct (H2 (SStr "a|b") eq_refl) as [_ H2'].
    split.
    + apply H1'. by exists "a|b".
    + apply (H2' "a|b"); [reflexivity|discriminate].
Defined.

(** ** Floating-point division of the counters *)

Lemma int_operand_pos n :
  n ≠ 0%nat → ∃ m, Z.of_nat n = Z.pos m ∧ int_operand n = S754_finite false m 0.
Proof.
  intros Hn. unfold int_operand.
  destruct (Z.of_nat n) as [|m|m] eqn:E; [lia| |lia]. eauto.
Qed.

Lemma truediv_zero b : b ≠ 0%nat → truediv 0 b = Ok float_0.
Proof.
  intros Hb. unfold truediv. rewrite decide_False by done.
  destruct (int_operand_pos b Hb) as (m & _ & ->). reflexivity.
Qed.

(** The number of binary digits of a mantissa. *)
Lemma digits2_pos_size p : digits2_pos p = Pos.size p.
Proof. induction p; simpl; congruence. Qed.

Lemma Zdigits2_nonneg m : (0 ≤ Zdigits2 m)%Z.
Proof. destruct m; simpl; lia. Qed.

Lemma Zdigits2_le m k :
  (0 ≤ m)%Z → (0 ≤ k)%Z → (m < 2 ^ k)%Z → (Zdigits2 m ≤ k)%Z.
Proof.
  intros Hm Hk Hlt. destruct m as [|p|p]; [simpl; lia| |lia].
  simpl. rewrite digits2_pos_size.
  assert (Z.log2 (Z.pos p) < k)%Z as Hlog by (apply Z.log2_lt_pow2; lia).
  assert (Z.pos (Pos.size p) = Z.succ (Z.log2 (Z.pos p))) as ->; [|lia].
  destruct p; simpl; lia.
Qed.

Lemma Zdigits2_gt m : (0 ≤ m)%Z → (m < 2 ^ Zdigits2 m)%Z.
Proof.
  intros Hm. destruct m as [|p|p]; [simpl; lia| |lia].
  simpl. rewrite digits2_pos_size.
  pose proof (Pos.size_gt p) as H.
  apply Pos2Z.pos_lt_pos in H. by rewrite Pos2Z.inj_pow in H.
Qed.

Lemma shr_1_digits mrs :
  (0 ≤ shr_m mrs)%Z →
  (0 ≤ shr_m (shr_1 mrs))%Z
  ∧ (Zdigits2 (shr_m (shr_1 mrs)) ≤ Z.max (Zdigits2 (shr_m mrs) - 1) 0)%Z.
Proof.
  destruct mrs as [m r s]. simpl. intros Hm.
  destruct m as [|[p|p|]|p]; simpl; lia.
Qed.

Lemma iter_shr_1_digits p : ∀ mrs,
  (0 ≤ shr_m mrs)%Z →
  (0 ≤ shr_m (SpecFloat.iter_pos shr_1 p mrs))%Z
  ∧ (Zdigits2 (shr_m (SpecFloat.iter_pos shr_1 p mrs))
     ≤ Z.max (Zdigits2 (shr_m mrs) - Z.pos p) 0)%Z.
Proof.
  induction p as [p IH|p IH|]; intros mrs Hm; simpl.
  - destruct (shr_1_digits mrs Hm) as [H1 H1'].
    destruct (IH _ H1) as [H2 H2']. destruct (IH _ H2) as [H3 H3'].
    split; [done|]. lia.
  - destruct (IH _ Hm) as [H2 H2']. destruct (IH _ H2) as [H3 H3'].
    split; [done|]. lia.
  - destruct (shr_1_digits mrs Hm) as [H1 H1']. split; [done|]. lia.
Qed.

Lemma shr_record_of_loc_m m l : shr_m (shr_record_of_loc m l) = m.
Proof. by destruct l as [|[]]. Qed.

(** One shift of [binary_round_aux]: the mantissa stays non-negative, and
    the exponent and the magnitude stay within the bounds [K] and [E]. *)
Lemma shr_fexp_bounds m e l (K : Z) :
  (0 ≤ m)%Z → (Zdigits2 m + e ≤ K)%Z → (e ≤ K)%Z → (emin prec emax ≤ K - prec)%Z →
  let '(mrs, e') := shr_fexp prec emax m e l in
  (0 ≤ shr_m mrs)%Z
  ∧ (Zdigits2 (shr_m mrs) + e' ≤ K)%Z
  ∧ (e' ≤ K)%Z.
Proof.
  intros Hm Hd He Hmin. unfold shr_fexp, shr.
  pose proof (Zdigits2_nonneg m) as Hnn.
  assert (fexp prec emax (Zdigits2 m + e) ≤ K)%Z as Hf
    by (unfold fexp, prec in *; lia).
  destruct (fexp prec emax (Zdigits2 m + e) - e)%Z as [|n|n] eqn:En.
  - rewrite shr_record_of_loc_m. done.
  - destruct (iter_shr_1_digits n (shr_record_of_loc m l)) as [H1 H2];
      [by rewrite shr_record_of_loc_m|].
    rewrite shr_record_of_loc_m in H2.
    split; [done|]. split; [|lia].
    unfold fexp, prec in *. lia.
  - rewrite shr_record_of_loc_m. done.
Qed.

Lemma round_nearest_even_bounds m l :
  (0 ≤ m)%Z →
  (0 ≤ round_nearest_even m l)%Z
  ∧ (Zdigits2 (round_nearest_even m l) ≤ Zdigits2 m + 1)%Z.
Proof.
  intros Hm.
  assert (0 ≤ m + 1 ∧ Zdigits2 (m + 1) ≤ Zdigits2 m + 1)%Z as [H1 H2].
  { split; [lia|]. pose proof (Zdigits2_nonneg m).
    apply Zdigits2_le; [lia|lia|].
    pose proof (Zdigits2_gt m Hm). rewrite Z.pow_add_r by lia. lia. }
  unfold round_nearest_even.
  destruct l as [|[]]; [lia| |lia|done]. destruct (Z.even m); [lia|done].
Qed.

(** A value of small magnitude rounds to a zero or to a finite [float]. *)
Lemma binary_round_aux_finite sx mx ex lx :
  (0 ≤ mx)%Z → (Zdigits2 mx + ex ≤ 1)%Z → (ex ≤ 0)%Z →
  match binary_round_aux prec emax sx mx ex lx with
  | S754_zero _ | S754_finite _ _ _ => True
  | _ => False
  end.
Proof.
  intros Hm Hd He. unfold binary_round_aux.
  pose proof (shr_fexp_bounds mx ex lx 1 Hm Hd ltac:(lia) ltac:(vm_compute; discriminate))
    as H1.
  destruct (shr_fexp prec emax mx ex lx) as [mrs1 e1].
  destruct H1 as (Hm1 & Hd1 & He1).
  destruct (round_nearest_even_bounds (shr_m mrs1) (loc_of_shr_record mrs1) Hm1)
    as [Hm2 Hd2].
  pose proof (shr_fexp_bounds _ e1 loc_Exact 2 Hm2 ltac:(lia) ltac:(lia)
                ltac:(vm_compute; discriminate)) as H2.
  destruct (shr_fexp prec emax _ e1 loc_Exact) as [mrs2 e2].
  destruct H2 as (Hm3 & Hd3 & He3).
  destruct (shr_m mrs2) as [|p|p]; [done| |lia].
  rewrite (proj2 (Z.leb_le _ _)); [done|]. unfold emax, prec. lia.
Qed.

Lemma truediv_le a b :
  (a ≤ b)%nat → b ≠ 0%nat → ∃ ratio, truediv a b = Ok ratio.
Proof.
  intros Hab Hb. unfold truediv. rewrite decide_False by done.
  destruct (decide (a = 0%nat)) as [->|Ha].
  { destruct (int_operand_pos b Hb) as (m & _ & ->). by eexists. }
  destruct (int_operand_pos a Ha) as (ma & Hma & ->).
  destruct (int_operand_pos b Hb) as (mb & Hmb & ->).
  assert (Z.pos ma ≤ Z.pos mb)%Z as Hle by lia.
  clear Hab Ha Hb Hma Hmb a b.
  unfold SFdiv, SFdiv_core_binary.
  set (e' := Z.min _ _).
  assert (e' ≤ 0)%Z as He' by (subst e'; lia).
  set (s := (0 - 0 - e')%Z).
  set (m' := match s with Z.pos _ => Z.shiftl (Z.pos ma) s | 0%Z => Z.pos ma | Z.neg _ => 0%Z end).
  assert (m' = Z.pos ma * 2 ^ s)%Z as Hm'.
  { subst m'. destruct s as [|p|p] eqn:Es; [lia| |lia].
    by rewrite Z.shiftl_mul_pow2. }
  pose proof (Z_div_mod m' (Z.pos mb) ltac:(lia)) as Hdiv.
  destruct (Z.div_eucl m' (Z.pos mb)) as [q r]. destruct Hdiv as [Hq Hr].
  assert (0 ≤ s)%Z as Hs by lia.
  assert (0 < 2 ^ s)%Z as Hpow by (apply Z.pow_pos_nonneg; lia).
  assert (0 ≤ q ∧ q ≤ 2 ^ s)%Z as [Hq0 Hq1] by nia.
  pose proof (binary_round_aux_finite (xorb false false) q e'
                (new_location (Z.pos mb) r)) as Hfin.
  destruct (binary_round_aux prec emax _ q e' _); try by eexists.
  exfalso. apply Hfin; [done| |done].
  assert (Zdigits2 q ≤ s + 1)%Z; [|lia].
  apply Zdigits2_le; [done|lia|]. rewrite Z.pow_add_r by lia. lia.
Qed.

Lemma truediv_same n : n ≠ 0%nat → truediv n n = Ok float_1.
Proof.
  intros Hn. unfold truediv. rewrite decide_False by done.
  destruct (int_operand_pos n Hn) as (m & _ & ->).
  unfold SFdiv, SFdiv_core_binary.
  rewrite (Z.sub_diag (Zdigits2 (Z.pos m) + 0)).
  change (Z.min (fexp prec emax 0) (0 - 0)) with (-53)%Z.
  change (0 - 0 - -53)%Z with 53%Z. cbv beta iota zeta.
  rewrite Z.shiftl_mul_pow2 by lia.
  rewrite Z.mul_comm.
  pose proof (Z.div_mul (2 ^ 53) (Z.pos m) ltac:(lia)) as Hq.
  pose proof (Z.mod_mul (2 ^ 53) (Z.pos m) ltac:(lia)) as Hr.
  unfold Z.div, Z.modulo in Hq, Hr.
  destruct (Z.div_eucl (2 ^ 53 * Z.pos m) (Z.pos m)) as [q r].
  subst q r. cbv beta iota zeta.
  assert (new_location (Z.pos m) 0 = loc_Exact) as ->.
  { unfold new_location, new_location_even, new_location_odd.
    by destruct (Z.even _). }
  reflexivity.
Qed.

(** ** End of the quiz *)

(** The divisor of [end_quiz]: the number of questions reached, 1 when none
    was. *)
Lemma total_answered_cases (n : nat) :
  let total := if decide (0 < n)%nat then n else 1%nat in
  total ≠ 0%nat ∧ (n ≤ total)%nat ∧ (n = 0%nat → total = 1%nat)
  ∧ ((0 < n)%nat → total = n).
Proof. intros total. subst total. case_decide; lia. Qed.

(** [end_quiz] once its division has returned: the history gets one more
    entry. *)
Lemma end_quiz_ok now st ratio :
  let total := if decide (0 < current_question st)%nat
               then current_question st else 1%nat in
  truediv (correct_answers st) total = Ok ratio →
  let score := float_mul ratio float_100 in
  end_quiz now st
  = Ok (with_fs st (record_score now score (correct_answers st) total (fs st)),
        EndWindow ("Score: " ++ pretty (correct_answers st) ++ "/"
                   ++ pretty total ++ " (" ++ format_2f score ++ "%)")).
Proof.
  intros total Hdiv score. unfold end_quiz. fold total. by rewrite Hdiv.
Qed.

Lemma end_quiz_inv now st st' scr :
  end_quiz now st = Ok (st', scr) →
  let total := if decide (0 < current_question st)%nat
               then current_question st else 1%nat in
  ∃ ratio,
    truediv (correct_answers st) total = Ok ratio
    ∧ st' = with_fs st (record_score now (float_mul ratio float_100)
                          (correct_answers st) total (fs st))
    ∧ scr = EndWindow ("Score: " ++ pretty (correct_answers st) ++ "/"
                       ++ pretty total ++ " ("
                       ++ format_2f (float_mul ratio float_100) ++ "%)").
Proof.
  intros Hend total. unfold end_quiz in Hend. fold total in Hend.
  destruct (truediv (correct_answers st) total) as [ratio|]; [|done].
  rewrite bind_ok in Hend. injection Hend as <- <-. by exists ratio.
Qed.

(** [end_quiz] never divides by zero, and it returns when no more answers
    are counted correct than questions were reached. *)
Lemma end_quiz_no_zero_division now st :
  end_quiz now st ≠ Raise ZeroDivisionError.
Proof.
  unfold end_quiz, truediv.
  destruct (total_answered_cases (current_question st)) as [Hne _].
  destruct (decide (_ = 0%nat)) as [H0|_]; [done|].
  by destruct (SFdiv _ _ _ _).
Qed.

Lemma end_quiz_returns now st :
  (correct_answers st ≤ current_question st)%nat →
  ∃ st' label, end_quiz now st = Ok (st', EndWindow label).
Proof.
  intros Hle.
  pose proof (total_answered_cases (current_question st)) as Ht.
  cbv zeta in Ht.
  set (total := if decide (0 < current_question st)%nat
                then current_question st else 1%nat) in Ht.
  destruct Ht as (Hne & Hge & _).
  destruct (truediv_le (correct_answers st) total) as [ratio Hdiv];
    [lia|done|].
  rewrite (end_quiz_ok now st ratio Hdiv). eauto.
Qed.

Lemma ask_question_total now st :
  (correct_answers st ≤ current_question st)%nat →
  ∃ r, ask_question now st = Ok r.
Proof.
  intros Hle. unfold ask_question. case_decide as Hlen.
  - destruct (end_quiz_returns now st Hle) as (st' & label & ->). eauto.
  - destruct (lookup_lt_is_Some_2 (question_queue st) (current_question st))
      as [q Hq]; [lia|].
    rewrite (list_index_nat _ _ _ Hq), bind_ok.
    repeat case_decide; eauto.
Qed.

Lemma ask_question_empty now st :
  question_queue st = [] → ask_question now st = end_quiz now st.
Proof.
  intros Hq. unfold ask_question. rewrite Hq.
  case_decide as H; [done|]. simpl in H. lia.
Qed.

Section PoolProperties.

Variable shuffle : list question → list question.
Hypothesis shuffle_perm : ∀ l, shuffle l ≡ₚ l.

(** [run_quiz] with the two prompts resolved: the files after the resets,
    and the lists the queue is built from. *)
Lemma run_quiz_unfold now question_count topics
    (reset_memory reset_missed : bool) st :
  let memory := if reset_memory then [] else load_asked_questions (fs st) in
  let wrong := if reset_missed then [] else load_wrong_questions (fs st) in
  let queue := session_queue shuffle question_count topics memory wrong in
  run_quiz shuffle now question_count topics reset_memory reset_missed st
  = ask_question now
      {| fs := files_after_prompts reset_memory reset_missed (fs st);
         questions_asked := queue;
         correct_answers := 0;
         question_queue := queue;
         current_question := 0;
         question_memory := memory |}.
Proof. by destruct reset_memory, reset_missed. Qed.

(** C5: when the queue built by [run_quiz] is empty, [run_quiz] goes
    straight to the end window, raising nothing and presenting no question:
    the total is taken as 1, the score is 0.0 and is shown as "0.00%"; the
    history gets the entry (0, 1, 0.0).  In no state does [end_quiz] divide
    by zero, and it returns in every state in which no more answers are
    counted correct than questions were reached. *)
Theorem empty_queue_ends_quiz now question_count topics
    (reset_memory reset_missed : bool) st :
  let memory := if reset_memory then [] else load_asked_questions (fs st) in
  let wrong := if reset_missed then [] else load_wrong_questions (fs st) in
  session_queue shuffle question_count topics memory wrong = [] →
  (∃ st',
     run_quiz shuffle now question_count topics reset_memory reset_missed st
     = Ok (st', EndWindow "Score: 0/1 (0.00%)")
     ∧ question_queue st' = []
     ∧ load_score_history (fs st')
       = (load_score_history (fs st)
          ++ [{| se_date := now; se_correct := 0; se_total := 1;
                 se_score := float_0 |}])%list)
  ∧ (∀ st0, end_quiz now st0 ≠ Raise ZeroDivisionError)
  ∧ ∀ st0, (correct_answers st0 ≤ current_question st0)%nat →
      ∃ st1 label, end_quiz now st0 = Ok (st1, EndWindow label).
Proof.
  intros memory wrong Hq. split; [|split].
  - rewrite run_quiz_unfold. fold memory wrong. rewrite Hq.
    rewrite ask_question_empty by done.
    rewrite (end_quiz_ok _ _ float_0) by reflexivity.
    eexists. split; [reflexivity|]. split; [reflexivity|].
    by destruct reset_memory, reset_missed.
  - intros st0. apply end_quiz_no_zero_division.
  - intros st0. apply end_quiz_returns.
Qed.

(** ** The question pool *)

Lemma all_questions_of_concat topics :
  all_questions_of topics = concat (topics.*2).
Proof.
  unfold all_questions_of.
  assert (∀ acc, foldl (λ acc t, acc ++ t.2)%list acc topics
                 = (acc ++ concat (topics.*2))%list) as H.
  { induction topics as [|t topics IH]; intros acc; simpl.
    - by rewrite app_nil_r.
    - by rewrite IH, app_assoc. }
  apply H.
Qed.

Lemma filter_ext_elem {A} (P1 P2 : A → Prop) `{∀ x, Decision (P1 x)}
    `{∀ x, Decision (P2 x)} (l : list A) :
  (∀ x, x ∈ l → P1 x ↔ P2 x) → filter P1 l = filter P2 l.
Proof.
  induction l as [|x l IH]; intros HP; [done|].
  rewrite !filter_cons.
  rewrite IH by (intros y Hy; apply HP; by right).
  pose proof (HP x ltac:(left)) as Hx.
  repeat case_decide; tauto.
Qed.

Lemma slice_to_nonneg {A} (l : list A) (k : Z) :
  (0 ≤ k)%Z → slice_to l k = take (Z.to_nat k) l.
Proof.
  intros Hk. unfold slice_to.
  destruct (Z.ltb_spec k 0); [lia|done].
Qed.

(** The queue for a count that is not negative. *)
Lemma session_queue_nonneg question_count topics memory wrong :
  (0 ≤ question_count)%Z →
  let bank := concat (topics.*2) in
  let missed_present := filter (λ q, q ∈ bank) wrong in
  let fresh := filter (λ q, (q ∉ memory) ∧ (q ∉ wrong)) bank in
  ∃ perm,
    perm ≡ₚ fresh
    ∧ session_queue shuffle question_count topics memory wrong
      = take (Z.to_nat question_count) (missed_present ++ perm)%list
    ∧ length (session_queue shuffle question_count topics memory wrong)
      = Z.to_nat (Z.min question_count
                    (Z.of_nat (length missed_present + length fresh))).
Proof.
  intros Hn bank missed_present fresh.
  unfold session_queue. rewrite all_questions_of_concat.
  fold bank. fold missed_present.
  assert (filter (λ q, (q ∉ memory) ∧ (q ∉ missed_present)) bank = fresh)
    as ->.
  { apply filter_ext_elem. intros q Hq. unfold missed_present.
    rewrite list_elem_of_filter. tauto. }
  exists (shuffle fresh). split; [apply shuffle_perm|].
  rewrite slice_to_nonneg by lia.
  assert (length (missed_present ++ shuffle fresh)%list
          = (length missed_present + length fresh)%nat) as Hlen
    by by rewrite length_app, shuffle_perm.
  split.
  - rewrite Hlen.
    destruct (Z.min_spec question_count
                (Z.of_nat (length missed_present + length fresh)))
      as [[_ ->]|[Hle ->]]; [done|].
    rewrite Nat2Z.id, !take_ge; [done|lia|lia].
  - rewrite length_take, Hlen. lia.
Qed.

End PoolProperties.

Lemma empty_queue_ends_quiz_witness :
  ∃ st',
    run_quiz id "2026-01-01 09:00:00" 5 [("Topic 1", [])] false false
      (initial_state no_files)
    = Ok (st', EndWindow "Score: 0/1 (0.00%)")
    ∧ load_score_history (fs st')
      = [{| se_date := "2026-01-01 09:00:00"; se_correct := 0;
            se_total := 1; se_score := float_0 |}].
Proof.
  destruct (empty_queue_ends_quiz id "2026-01-01 09:00:00" 5
              [("Topic 1", [])] false false (initial_state no_files))
    as [(st' & Hrun & _ & Hhist) _].
  - reflexivity.
  - exists st'. split; [exact Hrun|exact Hhist].
Defined.

Lemma ask_question_queue now st st' scr :
  ask_question now st = Ok (st', scr) →
  question_queue st' = question_queue st.
Proof.
  unfold ask_question. case_decide.
  - intros Hend. by destruct (end_quiz_inv _ _ _ _ Hend) as (ratio & _ & -> & _).
  - destruct (list_index _ _) as [q|]; [|done]. rewrite bind_ok.
    repeat case_decide; by intros [= <- _].
Qed.

(** C2, for a requested count that is not negative: the queue built by
    [run_quiz] is the missed questions still in the flattened bank, in their
    stored order, followed by a permutation of the bank questions that are
    neither mastered nor missed, cut to the first [N]; its length is
    [min(N, totalAvailable)].  With bank [q1; q2; q3; q4] of distinct
    questions, missed [q2], mastered [q4] and N = 3, the queue starts with
    q2, goes on with q1 and q3 in some order, has no q4 and has length 3. *)
Theorem pool_queue (shuffle : list question → list question) now
    question_count topics (reset_memory reset_missed : bool) st :
  (∀ l, shuffle l ≡ₚ l) →
  (0 ≤ question_count)%Z →
  let bank := concat (topics.*2) in
  let mastered := if reset_memory then [] else load_asked_questions (fs st) in
  let missed := if reset_missed then [] else load_wrong_questions (fs st) in
  let missed_present := filter (λ q, q ∈ bank) missed in
  let fresh := filter (λ q, (q ∉ mastered) ∧ (q ∉ missed)) bank in
  ∃ st' scr perm,
    run_quiz shuffle now question_count topics reset_memory reset_missed st
    = Ok (st', scr)
    ∧ perm ≡ₚ fresh
    ∧ question_queue st'
      = take (Z.to_nat question_count) (missed_present ++ perm)%list
    ∧ length (question_queue st')
      = Z.to_nat (Z.min question_count
                    (Z.of_nat (length missed_present + length fresh)))
    ∧ ∀ q1 q2 q3 q4,
        NoDup [q1; q2; q3; q4] → bank = [q1; q2; q3; q4] →
        missed = [q2] → mastered = [q4] → question_count = 3%Z →
        ∃ rest, question_queue st' = q2 :: rest ∧ rest ≡ₚ [q1; q3]
                ∧ (q4 ∉ question_queue st')
                ∧ length (question_queue st') = 3%nat.
Proof.
  intros Hperm Hn bank mastered missed missed_present fresh.
  destruct (session_queue_nonneg shuffle Hperm question_count topics
              mastered missed Hn) as (perm & Hp & Hq & Hlen).
  fold bank missed_present fresh in Hp, Hq, Hlen.
  rewrite run_quiz_unfold. fold mastered missed.
  destruct (ask_question_total now
              {| fs := files_after_prompts reset_memory reset_missed (fs st);
                 questions_asked :=
                   session_queue shuffle question_count topics mastered missed;
                 correct_answers := 0;
                 question_queue :=
                   session_queue shuffle question_count topics mastered missed;
                 current_question := 0;
                 question_memory := mastered |} (Nat.le_refl 0))
    as [[st' scr] Hask].
  pose proof (ask_question_queue _ _ _ _ Hask) as Hqueue.
  cbn [question_queue] in Hqueue.
  exists st', scr, perm. rewrite Hqueue.
  split; [done|]. split; [done|]. split; [done|]. split; [done|].
  intros q1 q2 q3 q4 Hnd Hbank Hmissed Hmastered ->.
  assert (q1 ≠ q2 ∧ q1 ≠ q3 ∧ q1 ≠ q4 ∧ q2 ≠ q3 ∧ q2 ≠ q4 ∧ q3 ≠ q4)
    as (H12 & H13 & H14 & H23 & H24 & H34).
  { repeat (apply NoDup_cons in Hnd as [? Hnd]). set_solver. }
  assert (missed_present = [q2]) as Hmp.
  { subst missed_present. rewrite Hmissed, Hbank.
    rewrite filter_cons_True by set_solver. done. }
  assert (fresh = [q1; q3]) as Hfr.
  { subst fresh. rewrite Hbank, Hmissed, Hmastered.
    rewrite filter_cons_True by set_solver.
    rewrite filter_cons_False by set_solver.
    rewrite filter_cons_True by set_solver.
    rewrite filter_cons_False by set_solver. done. }
  rewrite Hq, Hmp, Hfr in *.
  assert (length perm = 2%nat) as Hl by by rewrite Hp.
  exists perm. cbn [app Z.to_nat Pos.to_nat Pos.iter_op Nat.add take].
  destruct perm as [|a [|b [|c perm]]]; try done.
  split; [done|]. split; [done|]. split; [|done].
  intros Hin. assert (q4 ∈ [a; b]) as Hab by set_solver.
  rewrite Hp in Hab. set_solver.
Qed.

(** The bank Q1..Q4 in two topics, Q4 mastered, Q2 missed, three questions
    asked for, the shuffle reversing its list: the queue is Q2, Q3, Q1. *)
Lemma pool_queue_witness :
  ∃ st' scr,
    run_quiz reverse "2026-01-01 09:00:00" 3 sample_bank false false
      (initial_state sample_progress) = Ok (st', scr)
    ∧ question_queue st' = [Q2; Q3; Q1].
Proof.
  destruct (pool_queue reverse "2026-01-01 09:00:00" 3 sample_bank
              false false (initial_state sample_progress))
    as (st' & scr & perm & Hrun & _ & _ & _ & _).
  - intros l. apply reverse_Permutation.
  - lia.
  - exists st', scr. split; [exact Hrun|].
    assert (run_quiz reverse "2026-01-01 09:00:00" 3 sample_bank false false
              (initial_state sample_progress)
            = Ok (with_queue [Q2; Q3; Q1] (initial_state sample_progress),
                  MultipleChoiceWindow Q2 1)) as Heval by by_compute_eq.
    rewrite Heval in Hrun. by injection Hrun as <- _.
Defined.

(** A requested count of -1 with the same bank and progress, the shuffle
    leaving the order: three questions are available, the queue is the
    first two of them, and no list has length [min(-1, 3)]. *)
Lemma pool_queue_negative_count :
  ∃ st' scr,
    run_quiz id "2026-01-01 09:00:00" (-1) sample_bank false false
      (initial_state sample_progress) = Ok (st', scr)
    ∧ question_queue st' = [Q2; Q1]
    ∧ Z.of_nat (length (question_queue st')) ≠ Z.min (-1) 3
    ∧ question_queue st'
      ≠ take (Z.to_nat (Z.min (-1) 3)) [Q2; Q1; Q3].
Proof.
  exists (with_queue [Q2; Q1] (initial_state sample_progress)),
    (MultipleChoiceWindow Q2 1).
  split; [by_compute_eq|]. split; [reflexivity|]. split; [|done].
  simpl. lia.
Qed.

(** ** Mastered and missed lists *)

Lemma remove_first_elem (x y : question) l :
  y ∈ remove_first x l → y ∈ l.
Proof.
  induction l as [|z l IH]; simpl; [done|].
  case_decide; [by right|]. rewrite !elem_of_cons. tauto.
Qed.

Lemma remove_first_NoDup (x : question) l :
  NoDup l → NoDup (remove_first x l) ∧ x ∉ remove_first x l.
Proof.
  induction 1 as [|z l Hz Hl IH]; simpl.
  - split; [constructor|]. apply not_elem_of_nil.
  - case_decide as Hxz; [by subst|].
    destruct IH as [IH1 IH2]. split.
    + constructor; [|done]. intros Hin. by apply Hz, (remove_first_elem x).
    + rewrite elem_of_cons. tauto.
Qed.

(** What a correct answer does to the two persisted lists. *)
Lemma mark_question_correct_files q st :
  memory_loaded st →
  let st' := mark_question_correct q st in
  memory_loaded st'
  ∧ load_asked_questions (fs st')
    = (if decide (q ∈ load_asked_questions (fs st))
       then load_asked_questions (fs st)
       else load_asked_questions (fs st) ++ [q])%list
  ∧ load_wrong_questions (fs st')
    = (if decide (q ∈ load_wrong_questions (fs st))
       then remove_first q (load_wrong_questions (fs st))
       else load_wrong_questions (fs st)).
Proof.
  unfold memory_loaded, mark_question_correct. intros Hmem. rewrite Hmem.
  destruct (decide (q ∉ load_asked_questions (fs st))) as [Hq|Hq].
  - rewrite (decide_False (P := q ∈ load_asked_questions (fs st))) by done.
    cbn [fs question_memory].
    change (load_wrong_questions (save_asked_questions _ (fs st)))
      with (load_wrong_questions (fs st)).
    by case_decide.
  - rewrite (decide_True (P := q ∈ load_asked_questions (fs st)))
      by by apply dec_stable.
    by case_decide.
Qed.

(** What an incorrect answer does to them. *)
Lemma mark_question_wrong_files q st :
  let st' := mark_question_wrong q st in
  question_memory st' = question_memory st
  ∧ load_asked_questions (fs st') = load_asked_questions (fs st)
  ∧ load_wrong_questions (fs st')
    = (if decide (q ∈ load_wrong_questions (fs st))
       then load_wrong_questions (fs st)
       else load_wrong_questions (fs st) ++ [q])%list.
Proof.
  unfold mark_question_wrong.
  destruct (decide (q ∉ load_wrong_questions (fs st))) as [Hq|Hq].
  - by rewrite (decide_False (P := q ∈ load_wrong_questions (fs st))).
  - by rewrite (decide_True (P := q ∈ load_wrong_questions (fs st)))
      by by apply dec_stable.
Qed.

(** Either [submit] ends in one of the two bookkeeping branches. *)
Lemma mc_submit_branches set_order q selected st st' msg :
  mc_submit set_order q selected st = Ok (st', msg) →
  st' = mark_question_correct q (add_correct st)
  ∨ st' = mark_question_wrong q st.
Proof.
  unfold mc_submit.
  destruct (is_mc_selection_correct _ _ _ _) as [[[] d]|]; [| |done];
    rewrite bind_ok; intros [= <- _]; auto.
Qed.

Lemma dnd_submit_branches q selected st st' msg :
  dnd_submit q selected st = Ok (st', msg) →
  st' = mark_question_correct q (add_correct st)
  ∨ st' = mark_question_wrong q st.
Proof.
  unfold dnd_submit. case_bool_decide.
  - intros [= <- _]. auto.
  - destruct (join_values _ _); [|done]. rewrite bind_ok.
    intros [= <- _]. auto.
Qed.

Lemma remove_first_other (x y : question) l :
  y ≠ x → y ∈ remove_first x l ↔ y ∈ l.
Proof.
  intros Hne. induction l as [|z l IH]; simpl; [done|].
  case_decide as Hxz.
  - subst z. rewrite elem_of_cons. naive_solver.
  - rewrite !elem_of_cons, IH. done.
Qed.

(** The correct branch: the question is mastered and no longer missed, no
    other question changes list, and the lists stay disjoint. *)
Lemma mark_question_correct_disjoint q st :
  memory_loaded st →
  sets_disjoint (fs st) →
  NoDup (load_wrong_questions (fs st)) →
  let st' := mark_question_correct q (add_correct st) in
  memory_loaded st'
  ∧ NoDup (load_wrong_questions (fs st'))
  ∧ (∀ y, y ≠ q →
       (y ∈ load_asked_questions (fs st') ↔ y ∈ load_asked_questions (fs st))
       ∧ (y ∈ load_wrong_questions (fs st')
          ↔ y ∈ load_wrong_questions (fs st)))
  ∧ q ∈ load_asked_questions (fs st')
  ∧ (q ∉ load_wrong_questions (fs st'))
  ∧ sets_disjoint (fs st').
Proof.
  intros Hmem Hdis Hnd st'.
  destruct (mark_question_correct_files q (add_correct st) Hmem)
    as (Hmem' & Hasked & Hwrong).
  fold st' in Hmem', Hasked, Hwrong.
  change (fs (add_correct st)) with (fs st) in Hasked, Hwrong.
  assert ((q ∉ load_wrong_questions (fs st'))
          ∧ NoDup (load_wrong_questions (fs st'))
          ∧ ∀ y, y ≠ q → y ∈ load_wrong_questions (fs st')
                         ↔ y ∈ load_wrong_questions (fs st))
    as (Hq & Hnd' & Hother).
  { rewrite Hwrong. clear Hwrong Hasked.
    destruct (decide (q ∈ load_wrong_questions (fs st))) as [Hin|Hin].
    - destruct (remove_first_NoDup q _ Hnd) as [? ?].
      split; [done|]. split; [done|]. intros y Hy.
      by apply remove_first_other.
    - done. }
  clear Hwrong.
  assert (∀ y, y ∈ load_asked_questions (fs st')
               ↔ y ∈ load_asked_questions (fs st) ∨ y = q) as Ha.
  { intros y. rewrite Hasked.
    destruct (decide (q ∈ load_asked_questions (fs st))) as [Hin|Hin].
    - split; [tauto|]. by intros [?| ->].
    - by rewrite elem_of_app, list_elem_of_singleton. }
  clear Hasked.
  split; [done|]. split; [done|]. split; [|split; [|split; [done|]]].
  - intros y Hy. split; [|by apply Hother]. rewrite Ha. tauto.
  - apply Ha. by right.
  - intros y Hy Hy'. destruct (decide (y = q)) as [->|Hne]; [done|].
    apply Ha in Hy as [Hy|Hy]; [|done].
    apply (Hother y Hne) in Hy'. by eapply Hdis.
Qed.

(** The other branch: the question is missed, the mastered list and every
    other question are as before, and the lists stay disjoint exactly when
    the question was not mastered. *)
Lemma mark_question_wrong_disjoint q st :
  memory_loaded st →
  sets_disjoint (fs st) →
  NoDup (load_wrong_questions (fs st)) →
  let st' := mark_question_wrong q st in
  memory_loaded st'
  ∧ NoDup (load_wrong_questions (fs st'))
  ∧ (∀ y, y ≠ q →
       y ∈ load_wrong_questions (fs st') ↔ y ∈ load_wrong_questions (fs st))
  ∧ q ∈ load_wrong_questions (fs st')
  ∧ load_asked_questions (fs st') = load_asked_questions (fs st)
  ∧ (q ∉ load_asked_questions (fs st) ↔ sets_disjoint (fs st')).
Proof.
  intros Hmem Hdis Hnd st'.
  destruct (mark_question_wrong_files q st) as (Hmem' & Hasked & Hwrong).
  fold st' in Hmem', Hasked, Hwrong.
  assert (∀ y, y ∈ load_wrong_questions (fs st')
               ↔ y ∈ load_wrong_questions (fs st) ∨ y = q) as Hw.
  { intros y. rewrite Hwrong.
    destruct (decide (q ∈ load_wrong_questions (fs st))) as [Hin|Hin].
    - split; [tauto|]. by intros [?| ->].
    - by rewrite elem_of_app, list_elem_of_singleton. }
  split; [unfold memory_loaded in *; congruence|]. split.
  { rewrite Hwrong.
    destruct (decide (q ∈ load_wrong_questions (fs st))) as [Hin|Hin];
      [done|].
    apply NoDup_app. split; [done|]. split; [|apply NoDup_singleton].
    intros y Hy ->%list_elem_of_singleton. done. }
  clear Hwrong.
  split; [|split; [|split; [done|]]].
  - intros y Hy. rewrite Hw. tauto.
  - apply Hw. by right.
  - split.
    + intros Hq y Hy Hy'. rewrite Hasked in Hy.
      apply Hw in Hy' as [Hy'| ->]; [by eapply Hdis|done].
    + intros Hdis' Hq. apply (Hdis' q); [by rewrite Hasked|].
      apply Hw. by right.
Qed.

Lemma correct_branch_outcome q st :
  memory_loaded st →
  sets_disjoint (fs st) →
  NoDup (load_wrong_questions (fs st)) →
  submit_outcome q st true (mark_question_correct q (add_correct st)).
Proof.
  intros Hmem Hdis Hnd.
  destruct (mark_question_correct_disjoint q st Hmem Hdis Hnd)
    as (H1 & H2 & H3 & H4 & H5 & H6).
  split; [done|]. split; [done|]. split; [done|].
  split; [|done]. intros _. split; [|done].
  unfold mark_question_correct. by repeat case_decide.
Qed.

Lemma wrong_branch_outcome q st :
  memory_loaded st →
  sets_disjoint (fs st) →
  NoDup (load_wrong_questions (fs st)) →
  submit_outcome q st false (mark_question_wrong q st).
Proof.
  intros Hmem Hdis Hnd.
  destruct (mark_question_wrong_disjoint q st Hmem Hdis Hnd)
    as (H1 & H2 & H3 & H4 & H5 & H6).
  split; [done|]. split; [done|]. split.
  { intros y Hy. split; [by rewrite H5|by apply H3]. }
  split; [done|]. intros _. split; [|done].
  unfold mark_question_wrong. by case_decide.
Qed.

(** C9, as the code has it: from a state whose mastered and missed lists
    are disjoint, where the missed list has no repeated entry and the
    in-memory mastered list is the persisted one.  The [submit] of a
    multiple-choice question returns whenever the matcher does, and that of
    a drag-and-drop question whenever the selection is the correct sequence
    or the correct sequence holds texts.  An answer judged correct puts the
    question in the mastered list and takes it out of the missed list, and
    the lists stay disjoint.  An answer judged incorrect adds the question
    to the missed list only, and the lists stay disjoint exactly when the
    question was not already mastered.  No other question changes list. *)
Theorem submit_keeps_disjoint (set_order : gset scalar → list scalar) q st :
  memory_loaded st →
  sets_disjoint (fs st) →
  NoDup (load_wrong_questions (fs st)) →
  (∀ selected is_correct display,
     is_mc_selection_correct set_order (q_options q) (q_answer q) selected
     = Ok (is_correct, display) →
     ∃ st' msg,
       mc_submit set_order q selected st = Ok (st', msg)
       ∧ submit_outcome q st is_correct st')
  ∧ (∀ expected sequence,
       q_answer q = AList expected
       ∨ (∃ x, q_answer q = AScalar x ∧ expected = [x]) →
       (positionally_equal sequence expected →
        ∃ st' msg,
          dnd_submit q sequence st = Ok (st', msg)
          ∧ submit_outcome q st true st')
       ∧ (∀ texts, expected = SStr <$> texts →
            ¬ positionally_equal sequence expected →
            ∃ st' msg,
              dnd_submit q sequence st = Ok (st', msg)
              ∧ submit_outcome q st false st')).
Proof.
  intros Hmem Hdis Hnd. split.
  - intros selected is_correct display Hmc.
    unfold mc_submit. rewrite Hmc, bind_ok.
    destruct is_correct; eexists _, _; (split; [reflexivity|]).
    + by apply correct_branch_outcome.
    + by apply wrong_branch_outcome.
  - intros expected sequence Hexp.
    assert (expected_sequence (q_answer q) = expected) as Hseq.
    { by destruct Hexp as [-> |(x & -> & ->)]. }
    split.
    + intros Heq%positionally_equal_iff. rewrite <- Hseq in Heq.
      apply dnd_submit_correct_iff with (st := st) in Heq.
      eexists _, _. split; [exact Heq|]. by apply correct_branch_outcome.
    + intros texts Htexts Hne.
      eexists _, _. split.
      * apply (dnd_submit_wrong q sequence st texts); [congruence|].
        intros ->. apply Hne, positionally_equal_iff. by rewrite Htexts.
      * by apply wrong_branch_outcome.
Qed.

(** Q1 (correct letter A) on fresh files: answering A masters it, answering
    B records it as missed. *)
Lemma submit_keeps_disjoint_witness :
  (∃ st' msg,
     mc_submit elements Q1 {["A"]} (initial_state no_files) = Ok (st', msg)
     ∧ load_asked_questions (fs st') = [Q1]
     ∧ load_wrong_questions (fs st') = []
     ∧ sets_disjoint (fs st'))
  ∧ (∃ st' msg,
       mc_submit elements Q1 {["B"]} (initial_state no_files) = Ok (st', msg)
       ∧ load_asked_questions (fs st') = []
       ∧ load_wrong_questions (fs st') = [Q1]
       ∧ sets_disjoint (fs st')).
Proof.
  destruct (submit_keeps_disjoint elements Q1 (initial_state no_files))
    as [Hmc _].
  - reflexivity.
  - intros q Hq. by apply elem_of_nil in Hq.
  - constructor.
  - split.
    + destruct (Hmc {["A"]} true "A. Foo") as (st' & msg & Hsub & Hout);
        [by_compute_eq|].
      destruct Hout as (_ & _ & _ & Hc & _).
      destruct (Hc eq_refl) as (_ & _ & _ & Hd).
      exists st', msg. split; [exact Hsub|].
      assert (mc_submit elements Q1 {["A"]} (initial_state no_files)
              = Ok (mark_question_correct Q1
                      (add_correct (initial_state no_files)),
                    "Correct!" ++ nl
                    ++ "Explanation: No explanation available."))
        as Heval by by_compute_eq.
      rewrite Heval in Hsub. injection Hsub as <- _.
      split; [reflexivity|]. split; [reflexivity|exact Hd].
    + destruct (Hmc {["B"]} false "A. Foo") as (st' & msg & Hsub & Hout);
        [by_compute_eq|].
      destruct Hout as (_ & _ & _ & _ & Hw).
      destruct (Hw eq_refl) as (_ & _ & _ & Hd).
      exists st', msg. split; [exact Hsub|].
      assert (mc_submit elements Q1 {["B"]} (initial_state no_files)
              = Ok (mark_question_wrong Q1 (initial_state no_files),
                    "Wrong! Correct answer: A. Foo" ++ nl
                    ++ "Explanation: No explanation available."))
        as Heval by by_compute_eq.
      rewrite Heval in Hsub. injection Hsub as <- _.
      split; [reflexivity|]. split; [reflexivity|].
      apply Hd. apply not_elem_of_nil.
Defined.

(** Q1 already mastered and answered incorrectly: the lists were disjoint
    before the step, and Q1 is in both after it. *)
Lemma submit_breaks_disjoint :
  let st := with_queue [Q1]
              (initial_state {| asked_file := Some [Q1]; wrong_file := None;
                                score_file := None |}) in
  sets_disjoint (fs st)
  ∧ ∃ st' msg,
      mc_submit elements Q1 {["B"]} st = Ok (st', msg)
      ∧ Q1 ∈ load_asked_questions (fs st')
      ∧ Q1 ∈ load_wrong_questions (fs st')
      ∧ ¬ sets_disjoint (fs st').
Proof.
  intros st. split.
  - intros q _ Hq. by apply elem_of_nil in Hq.
  - exists (mark_question_wrong Q1 st). eexists.
    split; [by_compute_eq|].
    assert (Q1 ∈ load_asked_questions (fs (mark_question_wrong Q1 st)))
      as H1 by (vm_compute; left).
    assert (Q1 ∈ load_wrong_questions (fs (mark_question_wrong Q1 st)))
      as H2 by (vm_compute; left).
    split; [done|]. split; [done|]. intros Hdis. by eapply Hdis.
Qed.

(** * Further properties of the code *)

(** ** The normaliser: range of the result, the three cases *)

Lemma size_list_to_set_le (l : list string) :
  (size (list_to_set l : gset string) ≤ length l)%nat.
Proof.
  induction l as [|x l IH].
  - done.
  - rewrite list_to_set_cons. cbn [length].
    rewrite size_union_alt, size_singleton.
    assert (size (list_to_set l ∖ {[x]} : gset string)
            ≤ size (list_to_set l : gset string))%nat
      by (apply subseteq_size; set_solver).
    lia.
Qed.

(** Every letter of the normalised answer is the letter [chr(65 + i)] of
    an option index [i], so the set has at most [len(options)] letters. *)
Theorem normalize_letters_of_options options ans letters :
  normalize_mc_answer_to_letters options ans = Ok letters →
  (∀ L, L ∈ letters → ∃ i, (i < length options)%nat ∧ L = chr (65 + i))
  ∧ (size letters ≤ length options)%nat.
Proof.
  intros Hn.
  assert (∀ L, L ∈ letters → ∃ i, (i < length options)%nat ∧ L = chr (65 + i))
    as Hrange.
  { intros L HL. apply valid_letter_iff. by eapply normalize_valid. }
  split; [exact Hrange|].
  etrans; [apply (subseteq_size letters
                    (list_to_set ((λ i, chr (65 + i))
                                    <$> seq 0 (length options))))|].
  - intros L HL. destruct (Hrange L HL) as (i & Hi & ->).
    apply elem_of_list_to_set, list_elem_of_fmap. exists i.
    split; [done|]. apply elem_of_seq. lia.
  - etrans; [apply size_list_to_set_le|].
    by rewrite length_fmap, length_seq.
Qed.

Lemma normalize_letters_of_options_witness :
  normalize_mc_answer_to_letters ["Alpha"; "Beta"]
    (AList [SStr "b."; SStr "Alpha"; SStr "Beta"; SStr "zzz"])
  = Ok {["A"; "B"]}
  ∧ (size ({["A"; "B"]} : gset string) ≤ 2)%nat.
Proof.
  assert (normalize_mc_answer_to_letters ["Alpha"; "Beta"]
            (AList [SStr "b."; SStr "Alpha"; SStr "Beta"; SStr "zzz"])
          = Ok {["A"; "B"]}) as H by by_compute_eq.
  split; [exact H|].
  exact (proj2 (normalize_letters_of_options _ _ _ H)).
Defined.

Lemma append_empty_r (s : string) : s ++ EmptyString = s.
Proof.
  induction s as [|c s IH]; [done|].
  change (String c (s ++ EmptyString) = String c s). by rewrite IH.
Qed.

Lemma append_snoc (w : string) c x :
  (w ++ String c EmptyString) ++ x = w ++ String c x.
Proof.
  induction w as [|d w IH]; [done|].
  change (String d ((w ++ String c EmptyString) ++ x)
          = String d (w ++ String c x)).
  by rewrite IH.
Qed.

Lemma split_go_head w s :
  w ≠ EmptyString → ∃ x ws, split_go w s = (w ++ x) :: ws.
Proof.
  revert w. induction s as [|c s IH]; intros w Hw; simpl.
  - destruct w; [done|]. exists EmptyString, [].
    by rewrite append_empty_r.
  - destruct (is_space c).
    + destruct w; [done|]. exists EmptyString, (split_go EmptyString s).
      by rewrite append_empty_r.
    + destruct (IH (w ++ String c EmptyString)) as (x & ws & ->).
      { by destruct w. }
      exists (String c x), ws. by rewrite append_snoc.
Qed.

(** The first word of a stripped token starts with its first character. *)
Lemma split_first_head c r w :
  is_space c = false →
  list_index (split (String c r)) 0 = Ok w → ∃ w', w = String c w'.
Proof.
  intros Hc. unfold split. cbn [split_go]. rewrite Hc.
  change (String.append EmptyString (String c EmptyString))
    with (String c EmptyString).
  destruct (split_go_head (String c EmptyString) r) as (x & ws & ->); [done|].
  intros [= <-]. by exists x.
Qed.

Lemma upper_length s : String.length (upper s) = String.length s.
Proof. induction s; simpl; congruence. Qed.

Lemma valid_letter_length options L :
  valid_letter options L → String.length L = 1%nat.
Proof. by intros (i & _ & ->)%valid_letter_iff. Qed.

(** Case 3 of the loop never adds a letter: a token whose first word,
    without its trailing "." and ":", uppercases to an option letter has
    that letter as its first character, and is resolved by Case 1. *)
Theorem punctuated_token_case_is_dead options raw L :
  resolve_token (_letters_map (length options)) (option_to_letter_map options)
    raw ≠ Ok (PunctuatedToken L).
Proof.
  unfold resolve_token.
  destruct (decide (strip (py_str raw) = EmptyString)); [done|].
  destruct (strip (py_str raw)) as [|c r] eqn:Hs; [done|].
  cbn [str_index0]. rewrite bind_ok.
  destruct (decide (is_Some (_letters_map (length options)
                               !! upper (String c EmptyString))))
    as [|Hfirst]; [done|].
  destruct (option_to_letter_map options !! String c r); [done|].
  destruct (list_index (split (String c r)) 0) as [w|] eqn:Hw; [|done].
  rewrite bind_ok.
  destruct (decide (is_Some (_letters_map (length options)
                               !! upper (rstrip_chars is_dot_or_colon w))))
    as [Htok|]; [|done].
  exfalso. apply Hfirst.
  apply split_first_head in Hw as [w' ->]; [|by eapply strip_head].
  pose proof (valid_letter_length options _ Htok) as Hlen.
  rewrite upper_length in Hlen.
  destruct (rstrip_chars is_dot_or_colon (String c w')) as [|d t] eqn:Hr;
    [done|].
  destruct (rstrip_chars_head _ _ _ _ Hr) as [r' [= <- _]].
  destruct t; [exact Htok|done].
Qed.

Lemma dict_of_pairs_fold_other {V} (kvs : list (string * V))
    (m : gmap string V) k :
  k ∉ kvs.*1 →
  foldl (λ m kv, <[kv.1 := kv.2]> m) m kvs !! k = m !! k.
Proof.
  revert m. induction kvs as [|[k' v'] kvs IH]; intros m Hk; [done|].
  cbn [foldl]. rewrite fmap_cons, not_elem_of_cons in Hk.
  destruct Hk as [Hne Hk]. rewrite IH by done.
  by rewrite lookup_insert_ne.
Qed.

(** In a dict comprehension the last pair with a given key decides. *)
Lemma dict_of_pairs_last {V} (l1 l2 : list (string * V)) k v :
  k ∉ l2.*1 → dict_of_pairs (l1 ++ (k, v) :: l2) !! k = Some v.
Proof.
  intros Hk. unfold dict_of_pairs. rewrite foldl_app. cbn [foldl].
  rewrite dict_of_pairs_fold_other by done.
  apply lookup_insert_eq.
Qed.

(** The exact-text rule resolves a token to the last option that has its
    trimmed text: the token equals the trimmed text of option [i], its first
    character is no option letter, and no later option has the same trimmed
    text. *)
Theorem exact_text_takes_last_option options raw i opt c r :
  options !! i = Some opt →
  strip (py_str raw) = strip opt →
  strip opt = String c r →
  ¬ valid_letter options (upper (String c EmptyString)) →
  (∀ j opt', (i < j)%nat → options !! j = Some opt' → strip opt' ≠ strip opt) →
  resolve_token (_letters_map (length options)) (option_to_letter_map options)
    raw = Ok (ExactText (chr (65 + i)))
  ∧ normalize_mc_answer_to_letters options (AList [raw])
    = Ok {[chr (65 + i)]}.
Proof.
  intros Hi Hs Hc Hfirst Hlast.
  assert (option_to_letter_map options !! strip opt = Some (chr (65 + i)))
    as Hlook.
  { apply list_elem_of_split_length in Hi as (o1 & o2 & -> & ->).
    unfold option_to_letter_map. rewrite imap_app, imap_cons.
    rewrite Nat.add_0_r. apply dict_of_pairs_last.
    intros ((j & opt') & Hkey & Hin)%list_elem_of_fmap.
    apply elem_of_lookup_imap in Hin as (j' & opt'' & [= -> ->] & Hj).
    cbn [fst] in Hkey. cbn [compose] in *.
    eapply (Hlast (length o1 + S j')%nat opt''); [lia| |done].
    rewrite lookup_app_r by lia.
    replace (length o1 + S j' - length o1)%nat with (S j') by lia.
    done. }
  assert (resolve_token (_letters_map (length options))
            (option_to_letter_map options) raw
          = Ok (ExactText (chr (65 + i)))) as Hr.
  { unfold resolve_token. rewrite Hs. rewrite Hc in *.
    destruct (decide (String c r = EmptyString)); [done|].
    cbn [str_index0]. rewrite bind_ok.
    destruct (decide (is_Some (_letters_map (length options)
                                 !! upper (String c EmptyString))));
      [done|].
    by rewrite Hlook. }
  split; [exact Hr|].
  rewrite normalize_list. unfold token_letters. simpl. rewrite Hr. simpl.
  f_equal. set_solver.
Qed.

(** Two options with the text "Yes": the answer "Yes" is option C, the
    last of them. *)
Lemma exact_text_takes_last_option_witness :
  normalize_mc_answer_to_letters ["Yes"; "No"; " Yes "] (AList [SStr "Yes"])
  = Ok {["C"]}.
Proof.
  apply (exact_text_takes_last_option ["Yes"; "No"; " Yes "] (SStr "Yes")
           2 " Yes " "Y"%char "es").
  - reflexivity.
  - reflexivity.
  - reflexivity.
  - apply (bool_decide_unpack _). vm_compute. exact I.
  - intros j opt' Hj Hopt. destruct j as [|[|[|j]]]; try lia; done.
Defined.

(** ** The matcher: when the fallback can succeed, when it can raise *)

Lemma normalize_empty_tokens options correct x :
  normalize_mc_answer_to_letters options correct = Ok ∅ →
  correct ≠ AScalar SNone →
  x ∈ correct_value_set correct →
  token_letters options x = ∅.
Proof.
  intros Hn Hc Hx. destruct correct as [y|l]; cbn [correct_value_set] in Hx.
  - apply elem_of_singleton in Hx as ->.
    rewrite normalize_scalar in Hn by congruence. congruence.
  - rewrite normalize_list in Hn. injection Hn as Hn.
    apply elem_of_list_to_set in Hx.
    apply set_eq. intros L. split; [|set_solver].
    intros HL. rewrite <- Hn. apply elem_of_union_list.
    exists (token_letters options x). split; [|done].
    apply list_elem_of_fmap. eauto.
Qed.

(** A token that is the text of an option, blank texts apart, resolves to
    a letter. *)
Lemma option_text_resolves options i opt :
  options !! i = Some opt → strip opt ≠ EmptyString →
  token_letters options (SStr opt) ≠ ∅.
Proof.
  intros Hi Hne. unfold token_letters, resolve_token. cbn [py_str].
  destruct (decide (strip opt = EmptyString)); [done|].
  destruct (strip opt) as [|c r] eqn:E; [done|].
  cbn [str_index0]. rewrite bind_ok.
  case_decide; [simpl; set_solver|].
  assert (is_Some (option_to_letter_map options !! String c r)) as [L ->].
  { unfold option_to_letter_map. apply dict_of_pairs_is_Some.
    apply list_elem_of_fmap. exists (String c r, chr (65 + i)).
    split; [done|]. apply elem_of_lookup_imap. exists i, opt.
    by rewrite E. }
  simpl. set_solver.
Qed.

(** The fallback judges a selection correct only when every raw correct
    value is a blank text (empty or whitespace): any other text that equals
    the text of a selected option would have been normalised to a letter. *)
Theorem fallback_correct_only_for_blank_answers
    (set_order : gset scalar → list scalar) options correct selected display :
  letters_fit options →
  normalize_mc_answer_to_letters options correct = Ok ∅ →
  (∀ L, L ∈ selected → valid_letter options L) →
  is_mc_selection_correct set_order options correct selected
  = Ok (true, display) →
  ∀ x, x ∈ correct_value_set correct →
       ∃ s, x = SStr s ∧ strip s = EmptyString.
Proof.
  intros Hfit Hn Hvalid Hmc x Hx.
  destruct (normalize_total options
              (AList (set_order (correct_value_set correct)))) as [tmp Htmp].
  rewrite (is_mc_fallback set_order options correct selected tmp
             Hfit Hn Hvalid Htmp) in Hmc.
  destruct (if decide (tmp ≠ ∅) then _ else _) as [d|]; [|done].
  rewrite bind_ok in Hmc. injection Hmc as Heq _.
  apply bool_decide_eq_true_1 in Heq.
  rewrite <- Heq in Hx. apply elem_of_map in Hx as (t & -> & Ht).
  exists t. split; [done|].
  unfold selected_option_texts in Ht.
  apply elem_of_list_to_set, list_elem_of_fmap in Ht as (i & -> & Hi).
  apply list_elem_of_filter in Hi as [Hsel Hi]. apply elem_of_seq in Hi.
  destruct (lookup_lt_is_Some_2 options i) as [opt Hopt]; [lia|].
  rewrite Hopt. cbn [default].
  destruct (decide (strip opt = EmptyString)) as [|Hne]; [done|].
  exfalso. apply (option_text_resolves options i opt Hopt Hne).
  apply (normalize_empty_tokens options correct); [done| |].
  - intros ->. cbn [correct_value_set] in Heq.
    assert (SNone ∈ (set_map SStr (selected_option_texts options selected)
                       : gset scalar)) as Hnone
      by (rewrite Heq; by apply elem_of_singleton).
    by apply elem_of_map in Hnone as (t & [=] & _).
  - rewrite <- Heq. apply elem_of_map. exists opt. split; [done|].
    unfold selected_option_texts.
    apply elem_of_list_to_set, list_elem_of_fmap. exists i.
    rewrite Hopt. split; [done|]. apply list_elem_of_filter.
    split; [exact Hsel|]. apply elem_of_seq. lia.
Qed.

(** Options ["Foo"; ""] and the empty text as correct answer: selecting B
    is judged correct by the fallback. *)
Lemma fallback_correct_only_for_blank_answers_witness :
  is_mc_selection_correct elements ["Foo"; ""] (AScalar (SStr "")) {["B"]}
  = Ok (true, "")
  ∧ ∃ s, SStr "" = SStr s ∧ strip s = EmptyString.
Proof.
  assert (is_mc_selection_correct elements ["Foo"; ""] (AScalar (SStr ""))
            {["B"]} = Ok (true, "")) as H by by_compute_eq.
  split; [exact H|].
  apply (fallback_correct_only_for_blank_answers elements ["Foo"; ""]
           (AScalar (SStr "")) {["B"]} "").
  - unfold letters_fit. simpl. lia.
  - by_compute_eq.
  - intros L HL. apply elem_of_singleton in HL as ->. by_compute.
  - exact H.
  - cbn [correct_value_set]. by apply elem_of_singleton_2.
Defined.

(** For a correct answer that is a text or a list of texts, the matcher
    returns for every selection of option letters: the [TypeError] of the
    fallback needs a value that is not text. *)
Theorem text_answer_never_raises (set_order : gset scalar → list scalar)
    options correct selected :
  (∀ X, set_order X ≡ₚ elements X) →
  letters_fit options →
  text_valued correct →
  (∀ L, L ∈ selected → valid_letter options L) →
  ∃ is_correct display,
    is_mc_selection_correct set_order options correct selected
    = Ok (is_correct, display).
Proof.
  intros Hperm Hfit Htext Hvalid.
  destruct (normalize_total options correct) as [letters Hn].
  destruct (decide (letters = ∅)) as [->|Hne].
  - destruct (text_valued_set set_order correct Hperm Htext)
      as (Hc & texts & Htexts).
    destruct (mc_fallback_set_texts set_order Hperm options correct selected
                texts Hfit Hn Hvalid Htexts) as [b ->].
    eauto.
  - rewrite (is_mc_primary set_order options correct selected letters Hn Hne).
    rewrite format_correct_answer_spec; [eauto|done| |done].
    intros L. by eapply normalize_valid.
Qed.

Lemma text_answer_never_raises_witness :
  ∃ is_correct display,
    is_mc_selection_correct elements ["Foo"; "Bar"]
      (AList [SStr "zzz"; SStr "B"]) {["A"; "B"]} = Ok (is_correct, display).
Proof.
  apply text_answer_never_raises.
  - done.
  - unfold letters_fit. simpl. lia.
  - repeat constructor; eauto.
  - intros L HL. apply elem_of_union in HL as [HL|HL];
      apply elem_of_singleton in HL as ->; by_compute.
Defined.

(** ** Drag and drop: an answer with an entry that is not text *)

Lemma join_values_has_non_text sep xs x :
  x ∈ xs → (∀ s, x ≠ SStr s) → join_values sep xs = Raise TypeError.
Proof.
  intros Hx Hnt. unfold join_values.
  assert (map_result as_text xs = Raise TypeError) as ->; [|done].
  induction xs as [|y xs IH]; [by apply elem_of_nil in Hx|].
  cbn [map_result]. destruct y as [|z|s]; [done|done|].
  apply elem_of_cons in Hx as [->|Hx]; [by destruct (Hnt s)|].
  cbn [as_text]. rewrite bind_ok, IH by done. done.
Qed.

(** A drag-and-drop question whose expected sequence holds a value that is
    not text (a null or a number) cannot be answered: the drop-downs give
    texts, so the comparison fails, and building the message raises
    [TypeError]. *)
Theorem dnd_non_text_answer_raises question_data selected st x :
  x ∈ expected_sequence (q_answer question_data) →
  (∀ s, x ≠ SStr s) →
  dnd_submit question_data selected st = Raise TypeError.
Proof.
  intros Hx Hnt. unfold dnd_submit.
  rewrite bool_decide_eq_false_2.
  - by rewrite (join_values_has_non_text _ _ x).
  - intros Heq. rewrite <- Heq in Hx.
    apply list_elem_of_fmap in Hx as (s & -> & _). by destruct (Hnt s).
Qed.

Lemma dnd_non_text_answer_raises_witness :
  dnd_submit
    {| q_question := "Order the steps"; q_options := ["one"; "two"];
       q_answer := AList [SStr "one"; SNone];
       q_type := Some "drag_and_drop"; q_explanation := None;
       q_image := None |}
    ["one"; "two"] (initial_state no_files)
  = Raise TypeError.
Proof.
  apply (dnd_non_text_answer_raises _ _ _ SNone).
  - right. left.
  - done.
Defined.

(** ** The mastered and missed lists: no repetition, idempotence *)

(** Marking a question correct keeps the mastered list free of repetition,
    and doing it twice is doing it once. *)
Theorem mark_question_correct_idempotent question_data st :
  memory_loaded st →
  NoDup (load_asked_questions (fs st)) →
  NoDup (load_wrong_questions (fs st)) →
  let st' := mark_question_correct question_data st in
  NoDup (load_asked_questions (fs st'))
  ∧ mark_question_correct question_data st' = st'.
Proof.
  intros Hmem Hnda Hndw st'.
  destruct (mark_question_correct_files question_data st Hmem)
    as (Hmem' & Hasked & Hwrong).
  fold st' in Hmem', Hasked, Hwrong.
  assert (question_data ∈ question_memory st') as Hin.
  { rewrite Hmem', Hasked.
    destruct (decide (question_data ∈ load_asked_questions (fs st)));
      [done|]. set_solver. }
  assert (question_data ∉ load_wrong_questions (fs st')) as Hout.
  { rewrite Hwrong.
    destruct (decide (question_data ∈ load_wrong_questions (fs st)));
      [|done].
    by apply remove_first_NoDup. }
  split.
  - rewrite Hasked.
    destruct (decide (question_data ∈ load_asked_questions (fs st)));
      [done|].
    apply NoDup_app. split; [done|]. split; [|apply NoDup_singleton].
    by intros y Hy ->%list_elem_of_singleton.
  - unfold mark_question_correct at 1.
    rewrite (decide_False (P := question_data ∉ question_memory st'))
      by (intros Hn; by apply Hn).
    by rewrite (decide_False
                  (P := question_data ∈ load_wrong_questions (fs st'))).
Qed.

Lemma mark_question_correct_idempotent_witness :
  let st := with_queue [Q2] (initial_state sample_progress) in
  load_asked_questions (fs (mark_question_correct Q2 st)) = [Q4; Q2]
  ∧ load_wrong_questions (fs (mark_question_correct Q2 st)) = []
  ∧ mark_question_correct Q2 (mark_question_correct Q2 st)
    = mark_question_correct Q2 st.
Proof.
  intros st. split; [reflexivity|]. split; [reflexivity|].
  apply (mark_question_correct_idempotent Q2 st).
  - reflexivity.
  - apply NoDup_singleton.
  - apply NoDup_singleton.
Defined.

(** Recording a question as missed twice records it once. *)
Theorem mark_question_wrong_idempotent question_data st :
  mark_question_wrong question_data (mark_question_wrong question_data st)
  = mark_question_wrong question_data st.
Proof.
  destruct (mark_question_wrong_files question_data st) as (_ & _ & Hwrong).
  assert (question_data
          ∈ load_wrong_questions (fs (mark_question_wrong question_data st)))
    as Hin.
  { rewrite Hwrong.
    destruct (decide (question_data ∈ load_wrong_questions (fs st)));
      set_solver. }
  unfold mark_question_wrong at 1.
  by rewrite (decide_False
                (P := question_data ∉ load_wrong_questions
                        (fs (mark_question_wrong question_data st))))
    by (intros Hn; by apply Hn).
Qed.

(** ** The queue for any requested count *)

Lemma session_queue_shape (shuffle : list question → list question)
    question_count topics memory wrong :
  let bank := concat (topics.*2) in
  let missed_present := filter (λ q, q ∈ bank) wrong in
  let fresh := filter (λ q, (q ∉ memory) ∧ (q ∉ wrong)) bank in
  session_queue shuffle question_count topics memory wrong
  = slice_to (missed_present ++ shuffle fresh)%list
      (Z.min question_count
         (Z.of_nat (length (missed_present ++ shuffle fresh)%list))).
Proof.
  intros bank missed_present fresh.
  unfold session_queue. rewrite all_questions_of_concat.
  fold bank. fold missed_present.
  assert (filter (λ q, (q ∉ memory) ∧ (q ∉ missed_present)) bank = fresh)
    as ->; [|done].
  apply filter_ext_elem. intros q Hq. unfold missed_present.
  rewrite list_elem_of_filter. tauto.
Qed.

Lemma slice_to_sublist {A} (l : list A) k : slice_to l k `sublist_of` l.
Proof. unfold slice_to. destruct (k <? 0)%Z; apply sublist_take. Qed.

Lemma run_quiz_queue (shuffle : list question → list question) now
    question_count topics (reset_memory reset_missed : bool) st st' scr :
  run_quiz shuffle now question_count topics reset_memory reset_missed st
  = Ok (st', scr) →
  question_queue st'
  = session_queue shuffle question_count topics
      (if reset_memory then [] else load_asked_questions (fs st))
      (if reset_missed then [] else load_wrong_questions (fs st)).
Proof.
  rewrite run_quiz_unfold. intros H.
  by apply ask_question_queue in H.
Qed.

(** Whatever the requested count, every queued question is in the bank and
    is either missed or not yet mastered; when neither the bank nor the
    missed list repeats a question, neither does the queue. *)
Theorem queue_questions_are_due (shuffle : list question → list question)
    now question_count topics (reset_memory reset_missed : bool) st st' scr :
  (∀ l, shuffle l ≡ₚ l) →
  run_quiz shuffle now question_count topics reset_memory reset_missed st
  = Ok (st', scr) →
  let bank := concat (topics.*2) in
  let mastered := if reset_memory then [] else load_asked_questions (fs st) in
  let missed := if reset_missed then [] else load_wrong_questions (fs st) in
  (∀ q, q ∈ question_queue st' → q ∈ bank ∧ (q ∈ missed ∨ q ∉ mastered))
  ∧ (NoDup bank → NoDup missed → NoDup (question_queue st')).
Proof.
  intros Hperm Hrun bank mastered missed.
  rewrite (run_quiz_queue _ _ _ _ _ _ _ _ _ Hrun).
  fold mastered missed. rewrite session_queue_shape.
  fold bank.
  set (missed_present := filter (λ q, q ∈ bank) missed).
  set (fresh := filter (λ q, (q ∉ mastered) ∧ (q ∉ missed)) bank).
  set (combined := (missed_present ++ shuffle fresh)%list).
  split.
  - intros q Hq.
    apply (elem_of_sublist _ combined) in Hq; [|apply slice_to_sublist].
    apply elem_of_app in Hq as [Hq|Hq].
    + apply list_elem_of_filter in Hq. tauto.
    + rewrite Hperm in Hq. apply list_elem_of_filter in Hq. tauto.
  - intros Hb Hm. apply (sublist_NoDup _ combined); [|apply slice_to_sublist].
    apply NoDup_app. split; [by apply NoDup_filter|]. split.
    + intros q Hq1 Hq2. rewrite Hperm in Hq2.
      apply list_elem_of_filter in Hq1. apply list_elem_of_filter in Hq2.
      tauto.
    + rewrite Hperm. by apply NoDup_filter.
Qed.

Lemma queue_questions_are_due_witness :
  ∃ st' scr,
    run_quiz reverse "2026-01-01 09:00:00" 10 sample_bank false false
      (initial_state sample_progress) = Ok (st', scr)
    ∧ ∀ q, q ∈ question_queue st' → q ∈ [Q1; Q2; Q3; Q4] ∧ (q ∈ [Q2] ∨ q ∉ [Q4]).
Proof.
  assert (run_quiz reverse "2026-01-01 09:00:00" 10 sample_bank false false
            (initial_state sample_progress)
          = Ok (with_queue [Q2; Q3; Q1] (initial_state sample_progress),
                MultipleChoiceWindow Q2 1)) as Hrun by by_compute_eq.
  eexists _, _. split; [exact Hrun|].
  apply (queue_questions_are_due reverse _ _ _ _ _ _ _ _
           (λ l, reverse_Permutation l) Hrun).
Defined.

(** A negative count [N] leaves out the last [|N|] of the available
    questions (all of them when there are no more than [|N|]): the slice
    [combined[:N]]. *)
Theorem negative_count_drops_last (shuffle : list question → list question)
    now question_count topics (reset_memory reset_missed : bool) st :
  (∀ l, shuffle l ≡ₚ l) →
  (question_count < 0)%Z →
  let bank := concat (topics.*2) in
  let mastered := if reset_memory then [] else load_asked_questions (fs st) in
  let missed := if reset_missed then [] else load_wrong_questions (fs st) in
  let missed_present := filter (λ q, q ∈ bank) missed in
  let fresh := filter (λ q, (q ∉ mastered) ∧ (q ∉ missed)) bank in
  ∃ st' scr perm,
    run_quiz shuffle now question_count topics reset_memory reset_missed st
    = Ok (st', scr)
    ∧ perm ≡ₚ fresh
    ∧ question_queue st'
      = take (length missed_present + length fresh
              - Z.to_nat (- question_count))
          (missed_present ++ perm)%list.
Proof.
  intros Hperm Hn bank mastered missed missed_present fresh.
  rewrite run_quiz_unfold. fold mastered missed.
  match goal with
  | |- context [ask_question now ?s] =>
      destruct (ask_question_total now s (Nat.le_refl 0))
        as [[st' scr] Hask]
  end.
  pose proof (ask_question_queue _ _ _ _ Hask) as Hq.
  cbn [question_queue] in Hq.
  exists st', scr, (shuffle fresh). split; [done|]. split; [apply Hperm|].
  rewrite Hq, session_queue_shape.
  fold bank. fold missed_present. fold fresh.
  assert (length (missed_present ++ shuffle fresh)%list
          = (length missed_present + length fresh)%nat) as Hlen
    by by rewrite length_app, Hperm.
  rewrite Hlen. rewrite Z.min_l by lia.
  unfold slice_to. destruct (Z.ltb_spec question_count 0); [|lia].
  rewrite Hlen. f_equal. lia.
Qed.

Lemma negative_count_drops_last_witness :
  ∃ st' scr,
    run_quiz reverse "2026-01-01 09:00:00" (-2) sample_bank false false
      (initial_state sample_progress) = Ok (st', scr)
    ∧ question_queue st' = [Q2].
Proof.
  destruct (negative_count_drops_last reverse "2026-01-01 09:00:00" (-2)
              sample_bank false false (initial_state sample_progress))
    as (st' & scr & perm & Hrun & _ & _).
  - intros l. apply reverse_Permutation.
  - lia.
  - exists st', scr. split; [exact Hrun|].
    assert (run_quiz reverse "2026-01-01 09:00:00" (-2) sample_bank
              false false (initial_state sample_progress)
            = Ok (with_queue [Q2] (initial_state sample_progress),
                  MultipleChoiceWindow Q2 1)) as Heval by by_compute_eq.
    rewrite Heval in Hrun. by injection Hrun as <- _.
Defined.

(** ** A whole session *)

Lemma files_after_prompts_lists (reset_memory reset_missed : bool) f :
  load_asked_questions (files_after_prompts reset_memory reset_missed f)
  = (if reset_memory then [] else load_asked_questions f)
  ∧ load_wrong_questions (files_after_prompts reset_memory reset_missed f)
    = (if reset_missed then [] else load_wrong_questions f).
Proof. by destruct reset_memory, reset_missed. Qed.

(** [ask_question] changes nothing but, at the end of the queue, the score
    history. *)
Lemma ask_question_state now st st' scr :
  ask_question now st = Ok (st', scr) →
  load_asked_questions (fs st') = load_asked_questions (fs st)
  ∧ load_wrong_questions (fs st') = load_wrong_questions (fs st)
  ∧ question_memory st' = question_memory st
  ∧ question_queue st' = question_queue st
  ∧ current_question st' = current_question st
  ∧ correct_answers st' = correct_answers st.
Proof.
  unfold ask_question. case_decide.
  - intros Hend.
    by destruct (end_quiz_inv _ _ _ _ Hend) as (ratio & _ & -> & _).
  - destruct (list_index _ _) as [q|]; [|done]. rewrite bind_ok.
    repeat case_decide; by intros [= <- _].
Qed.

Lemma mark_question_correct_session q st :
  question_queue (mark_question_correct q st) = question_queue st
  ∧ current_question (mark_question_correct q st) = current_question st.
Proof. unfold mark_question_correct. by repeat case_decide. Qed.

Lemma mark_question_wrong_session q st :
  question_queue (mark_question_wrong q st) = question_queue st
  ∧ current_question (mark_question_wrong q st) = current_question st.
Proof. unfold mark_question_wrong. by case_decide. Qed.

Lemma run_quiz_invariant (shuffle : list question → list question) now
    question_count topics (reset_memory reset_missed : bool) st st0 scr :
  (∀ l, shuffle l ≡ₚ l) →
  sets_disjoint (fs st) →
  NoDup (load_wrong_questions (fs st)) →
  NoDup (concat (topics.*2)) →
  run_quiz shuffle now question_count topics reset_memory reset_missed st
  = Ok (st0, scr) →
  session_invariant st0.
Proof.
  intros Hperm Hdis Hndw Hndb Hrun.
  pose proof (run_quiz_queue _ _ _ _ _ _ _ _ _ Hrun) as Hqueue.
  pose proof Hrun as Hask. rewrite run_quiz_unfold in Hask.
  apply ask_question_state in Hask
    as (Hasked & Hwrong & Hmem & _ & Hcur & _).
  cbn [fs question_memory current_question] in Hasked, Hwrong, Hmem, Hcur.
  destruct (files_after_prompts_lists reset_memory reset_missed (fs st))
    as [Ha Hw].
  rewrite Ha in Hasked. rewrite Hw in Hwrong.
  set (mastered := if reset_memory then [] else load_asked_questions (fs st))
    in *.
  set (missed := if reset_missed then [] else load_wrong_questions (fs st))
    in *.
  assert (∀ q, q ∈ mastered → q ∈ missed → False) as Hdis'.
  { intros q H1 H2. subst mastered missed.
    destruct reset_memory; [by apply elem_of_nil in H1|].
    destruct reset_missed; [by apply elem_of_nil in H2|].
    by eapply Hdis. }
  assert (NoDup missed) as Hndm.
  { subst missed. destruct reset_missed; [constructor|done]. }
  assert (question_queue st0 `sublist_of`
            (filter (λ q, q ∈ concat (topics.*2)) missed
             ++ shuffle (filter (λ q, (q ∉ mastered) ∧ (q ∉ missed))
                           (concat (topics.*2))))%list) as Hsub.
  { rewrite Hqueue, session_queue_shape. apply slice_to_sublist. }
  unfold session_invariant, sets_disjoint, memory_loaded.
  rewrite Hasked, Hwrong, Hmem.
  split; [exact Hdis'|]. split; [done|]. split; [done|]. split.
  - eapply sublist_NoDup; [|exact Hsub].
    apply NoDup_app. split; [by apply NoDup_filter|]. split.
    + intros q Hq1 Hq2. rewrite Hperm in Hq2.
      apply list_elem_of_filter in Hq1. apply list_elem_of_filter in Hq2.
      tauto.
    + rewrite Hperm. by apply NoDup_filter.
  - intros j q _ Hj Hq.
    apply list_elem_of_lookup_2 in Hj.
    apply (elem_of_sublist _ _ _ Hj) in Hsub.
    apply elem_of_app in Hsub as [Hin|Hin].
    + apply list_elem_of_filter in Hin as [_ Hin]. by eapply Hdis'.
    + rewrite Hperm in Hin. apply list_elem_of_filter in Hin. tauto.
Qed.

Lemma next_question_state now st st' scr :
  next_question now st = Ok (st', scr) →
  load_asked_questions (fs st') = load_asked_questions (fs st)
  ∧ load_wrong_questions (fs st') = load_wrong_questions (fs st)
  ∧ question_memory st' = question_memory st
  ∧ question_queue st' = question_queue st
  ∧ current_question st' = (current_question st + 1)%nat.
Proof.
  unfold next_question. intros H.
  apply ask_question_state in H as (H1 & H2 & H3 & H4 & H5 & _).
  done.
Qed.

(** The bookkeeping of one answer to the current question keeps the
    invariant, the index moved one on. *)
Lemma answer_keeps_invariant q st st1 now st2 scr :
  session_invariant st →
  question_queue st !! current_question st = Some q →
  st1 = mark_question_correct q (add_correct st)
  ∨ st1 = mark_question_wrong q st →
  next_question now st1 = Ok (st2, scr) →
  session_invariant st2.
Proof.
  intros (Hdis & Hndw & Hmem & Hndq & Hfuture) Hq Hbranch Hnext.
  apply next_question_state in Hnext as (Ha2 & Hw2 & Hm2 & Hq2 & Hc2).
  assert (q ∉ load_asked_questions (fs st)) as Hfresh
    by by eapply (Hfuture (current_question st)).
  assert (∀ j q', (current_question st + 1 ≤ j)%nat →
                  question_queue st !! j = Some q' → q' ≠ q) as Hlater.
  { intros j q' Hj Hq' ->.
    pose proof (NoDup_lookup _ _ _ _ Hndq Hq Hq'). lia. }
  unfold session_invariant, sets_disjoint, memory_loaded.
  rewrite Ha2, Hw2, Hm2, Hq2, Hc2.
  destruct Hbranch as [-> | ->].
  - destruct (mark_question_correct_files q (add_correct st) Hmem)
      as (Hmem' & Hasked & Hwrong).
    destruct (mark_question_correct_session q (add_correct st)) as [Hqq Hcc].
    change (fs (add_correct st)) with (fs st) in Hasked, Hwrong.
    change (question_queue (add_correct st)) with (question_queue st) in Hqq.
    change (current_question (add_correct st)) with (current_question st)
      in Hcc.
    rewrite Hasked, Hwrong, Hqq, Hcc.
    rewrite (decide_False (P := q ∈ load_asked_questions (fs st))) by done.
    assert (∀ y, y ∈ (if decide (q ∈ load_wrong_questions (fs st))
                      then remove_first q (load_wrong_questions (fs st))
                      else load_wrong_questions (fs st))
                 → y ∈ load_wrong_questions (fs st) ∧ y ≠ q) as Hsub.
    { intros y. destruct (decide (q ∈ load_wrong_questions (fs st))).
      - intros Hy. split; [by eapply remove_first_elem|].
        intros ->. by apply (remove_first_NoDup q _ Hndw).
      - intros Hy. split; [done|]. by intros ->. }
    split; [|split; [|split; [|split]]].
    + intros y Hy Hy'. apply Hsub in Hy' as [Hy' Hne].
      apply elem_of_app in Hy as [Hy|Hy%list_elem_of_singleton]; [|done].
      by eapply Hdis.
    + destruct (decide (q ∈ load_wrong_questions (fs st))); [|done].
      by apply remove_first_NoDup.
    + unfold memory_loaded in Hmem'. rewrite Hmem', Hasked.
      by rewrite (decide_False (P := q ∈ load_asked_questions (fs st))).
    + done.
    + intros j q' Hj Hq'. rewrite not_elem_of_app. split.
      * apply (Hfuture j); [lia|done].
      * rewrite list_elem_of_singleton. by eapply Hlater.
  - destruct (mark_question_wrong_files q st) as (Hmem' & Hasked & Hwrong).
    destruct (mark_question_wrong_session q st) as [Hqq Hcc].
    rewrite Hasked, Hwrong, Hmem', Hqq, Hcc.
    split; [|split; [|split; [|split]]].
    + intros y Hy Hy'.
      destruct (decide (q ∈ load_wrong_questions (fs st)));
        [by eapply Hdis|].
      apply elem_of_app in Hy' as [Hy'|Hy'%list_elem_of_singleton].
      * by eapply Hdis.
      * by subst y.
    + destruct (decide (q ∈ load_wrong_questions (fs st))) as [|Hin];
        [done|].
      apply NoDup_app. split; [done|]. split; [|apply NoDup_singleton].
      by intros y Hy ->%list_elem_of_singleton.
    + done.
    + done.
    + intros j q' Hj Hq'. apply (Hfuture j); [lia|done].
Qed.

Lemma session_step_invariant set_order st st' :
  session_invariant st → session_step set_order st st' →
  session_invariant st'.
Proof.
  intros Hinv Hstep.
  destruct Hstep as [st q letters st1 msg now st2 scr Hq _ Hsub Hnext
                    |st q sequence st1 msg now st2 scr Hq _ Hsub Hnext].
  - apply mc_submit_branches in Hsub.
    by eapply answer_keeps_invariant.
  - apply dnd_submit_branches in Hsub.
    by eapply answer_keeps_invariant.
Qed.

Lemma session_steps_invariant set_order st st' :
  rtc (session_step set_order) st st' →
  session_invariant st → session_invariant st'.
Proof.
  induction 1 as [st|st st1 st' Hstep _ IH]; [done|].
  intros Hinv. apply IH. by eapply session_step_invariant.
Qed.

(** When the bank holds no question twice and the stored lists are disjoint
    with no repetition in the missed list, then throughout a session in
    which every presented question is submitted once, no question is in
    both lists, and no question still to come is already mastered. *)
Theorem session_keeps_lists_disjoint
    (shuffle : list question → list question)
    (set_order : gset scalar → list scalar) now question_count topics
    (reset_memory reset_missed : bool) st st0 scr st' :
  (∀ l, shuffle l ≡ₚ l) →
  sets_disjoint (fs st) →
  NoDup (load_wrong_questions (fs st)) →
  NoDup (concat (topics.*2)) →
  run_quiz shuffle now question_count topics reset_memory reset_missed st
  = Ok (st0, scr) →
  rtc (session_step set_order) st0 st' →
  sets_disjoint (fs st')
  ∧ NoDup (load_wrong_questions (fs st'))
  ∧ ∀ j q, (current_question st' ≤ j)%nat →
           question_queue st' !! j = Some q →
           q ∉ load_asked_questions (fs st').
Proof.
  intros Hperm Hdis Hndw Hndb Hrun Hsteps.
  assert (session_invariant st') as (H1 & H2 & _ & _ & H3); [|done].
  eapply session_steps_invariant; [exact Hsteps|].
  by eapply run_quiz_invariant.
Qed.

(** The bank Q1..Q4 with Q4 mastered and Q2 missed: Q2 is asked first and
    answered correctly. *)
Lemma session_keeps_lists_disjoint_witness :
  ∃ st0 scr st',
    run_quiz reverse "2026-01-01 09:00:00" 3 sample_bank false false
      (initial_state sample_progress) = Ok (st0, scr)
    ∧ session_step elements st0 st'
    ∧ load_asked_questions (fs st') = [Q4; Q2]
    ∧ load_wrong_questions (fs st') = []
    ∧ sets_disjoint (fs st').
Proof.
  set (st0 := with_queue [Q2; Q3; Q1] (initial_state sample_progress)).
  set (st1 := mark_question_correct Q2 (add_correct st0)).
  set (st2 := {| fs := fs st1; questions_asked := questions_asked st1;
                 correct_answers := correct_answers st1;
                 question_queue := question_queue st1;
                 current_question := 1;
                 question_memory := question_memory st1 |}).
  assert (run_quiz reverse "2026-01-01 09:00:00" 3 sample_bank false false
            (initial_state sample_progress)
          = Ok (st0, MultipleChoiceWindow Q2 1)) as Hrun by by_compute_eq.
  assert (session_step elements st0 st2) as Hstep.
  { apply (step_multiple_choice elements st0 Q2 {["B"]} st1
             ("Correct!" ++ nl ++ "Explanation: No explanation available.")
             "2026-01-01 09:05:00" st2 (MultipleChoiceWindow Q3 2)).
    - reflexivity.
    - reflexivity.
    - by_compute_eq.
    - by_compute_eq. }
  exists st0, (MultipleChoiceWindow Q2 1), st2.
  split; [exact Hrun|]. split; [exact Hstep|].
  split; [reflexivity|]. split; [reflexivity|].
  apply (session_keeps_lists_disjoint reverse elements
           "2026-01-01 09:00:00" 3 sample_bank false false
           (initial_state sample_progress) st0 (MultipleChoiceWindow Q2 1)
           st2).
  - intros l. apply reverse_Permutation.
  - intros q Hq Hq'. apply list_elem_of_singleton in Hq as ->.
    by apply list_elem_of_singleton in Hq'.
  - apply NoDup_singleton.
  - apply (bool_decide_unpack _). vm_compute. exact I.
  - exact Hrun.
  - by apply rtc_once.
Defined.

(** The score history and the counters through a session. *)
Lemma mark_question_correct_counters q st :
  load_score_history (fs (mark_question_correct q st))
  = load_score_history (fs st)
  ∧ correct_answers (mark_question_correct q st) = correct_answers st.
Proof. unfold mark_question_correct. by repeat case_decide. Qed.

Lemma mark_question_wrong_counters q st :
  load_score_history (fs (mark_question_wrong q st))
  = load_score_history (fs st)
  ∧ correct_answers (mark_question_wrong q st) = correct_answers st.
Proof. unfold mark_question_wrong. by case_decide. Qed.

Lemma ask_question_history now st st' scr :
  ask_question now st = Ok (st', scr) →
  ((current_question st < length (question_queue st))%nat →
   load_score_history (fs st') = load_score_history (fs st))
  ∧ ((length (question_queue st) ≤ current_question st)%nat →
     (0 < current_question st)%nat →
     ∃ ratio,
       truediv (correct_answers st) (current_question st) = Ok ratio
       ∧ load_score_history (fs st')
         = (load_score_history (fs st)
            ++ [{| se_date := now;
                   se_correct := correct_answers st;
                   se_total := current_question st;
                   se_score := float_mul ratio float_100 |}])%list).
Proof.
  unfold ask_question. case_decide as Hlen.
  - intros Hend.
    destruct (end_quiz_inv _ _ _ _ Hend) as (ratio & Hdiv & -> & _).
    split; [lia|]. intros _ Hpos.
    rewrite (decide_True (P := (0 < current_question st)%nat)) in * by done.
    by exists ratio.
  - destruct (list_index _ _) as [q|]; [|done]. rewrite bind_ok.
    split; [|lia]. revert H. repeat case_decide; by intros [= <- _].
Qed.

Lemma answer_keeps_progress h0 queue q st st1 now st2 scr :
  session_progress h0 queue st →
  question_queue st !! current_question st = Some q →
  st1 = mark_question_correct q (add_correct st)
  ∨ st1 = mark_question_wrong q st →
  next_question now st1 = Ok (st2, scr) →
  session_progress h0 queue st2.
Proof.
  intros (Hq & Hcur & Hcor & Hbefore & _) Hlook Hbranch Hnext.
  apply lookup_lt_Some in Hlook. rewrite Hq in Hlook.
  assert (question_queue st1 = queue
          ∧ current_question st1 = current_question st
          ∧ (correct_answers st1 ≤ current_question st + 1)%nat
          ∧ load_score_history (fs st1) = h0) as (Hq1 & Hc1 & Hcor1 & Hh1).
  { destruct Hbranch as [-> | ->].
    - destruct (mark_question_correct_session q (add_correct st)) as [-> ->].
      destruct (mark_question_correct_counters q (add_correct st))
        as [-> ->].
      cbn [add_correct question_queue current_question correct_answers fs].
      split; [done|]. split; [done|]. split; [lia|]. by apply Hbefore.
    - destruct (mark_question_wrong_session q st) as [-> ->].
      destruct (mark_question_wrong_counters q st) as [-> ->].
      split; [done|]. split; [done|]. split; [lia|]. by apply Hbefore. }
  unfold next_question in Hnext.
  pose proof (ask_question_state _ _ _ _ Hnext)
    as (_ & _ & _ & Hq2 & Hc2 & Hcor2).
  pose proof (ask_question_history _ _ _ _ Hnext) as [Hin Hend].
  cbn [question_queue current_question correct_answers fs]
    in Hq2, Hc2, Hcor2, Hin, Hend.
  rewrite Hq1, Hc1 in *.
  unfold session_progress. rewrite Hq2, Hc2, Hcor2.
  split; [done|]. split; [lia|]. split; [lia|]. split.
  - intros Hlt. rewrite Hin by lia. done.
  - intros _ Hlast. destruct Hend as (ratio & Hdiv & Hhist); [lia|lia|].
    exists now, ratio. rewrite <- Hlast, Hhist, Hh1. done.
Qed.

Lemma session_step_progress set_order h0 queue st st' :
  session_progress h0 queue st → session_step set_order st st' →
  session_progress h0 queue st'.
Proof.
  intros Hinv Hstep.
  destruct Hstep as [st q letters st1 msg now st2 scr Hq _ Hsub Hnext
                    |st q sequence st1 msg now st2 scr Hq _ Hsub Hnext].
  - apply mc_submit_branches in Hsub.
    by eapply answer_keeps_progress.
  - apply dnd_submit_branches in Hsub.
    by eapply answer_keeps_progress.
Qed.

Lemma run_quiz_progress (shuffle : list question → list question) now
    question_count topics (reset_memory reset_missed : bool) st st0 scr :
  run_quiz shuffle now question_count topics reset_memory reset_missed st
  = Ok (st0, scr) →
  session_progress (load_score_history (fs st)) (question_queue st0) st0.
Proof.
  intros Hrun. rewrite run_quiz_unfold in Hrun.
  pose proof (ask_question_state _ _ _ _ Hrun)
    as (_ & _ & _ & Hq & Hc & Hcor).
  pose proof (ask_question_history _ _ _ _ Hrun) as [Hin _].
  cbn [question_queue current_question correct_answers fs]
    in Hq, Hc, Hcor, Hin.
  unfold session_progress. rewrite Hc, Hcor.
  split; [done|]. split; [lia|]. split; [lia|]. split.
  - intros Hlt. rewrite Hin; [by destruct reset_memory, reset_missed|].
    by rewrite <- Hq.
  - intros Hpos Hzero. lia.
Qed.

(** In a session in which every presented question is submitted once, the
    queue stays as [run_quiz] built it, no more answers are counted correct
    than questions were answered, the score history is untouched while
    questions remain, and once the last question is answered it has exactly
    one more record: the number of correct answers, the length of the queue,
    and as score the [float] that dividing the first by the second and
    multiplying by 100 gives.  The division returns; the score is 100.0 when
    every answer was correct and 0.0 when none was. *)
Theorem session_score_record (shuffle : list question → list question)
    (set_order : gset scalar → list scalar) now question_count topics
    (reset_memory reset_missed : bool) st st0 scr st' :
  run_quiz shuffle now question_count topics reset_memory reset_missed st
  = Ok (st0, scr) →
  rtc (session_step set_order) st0 st' →
  let n := length (question_queue st0) in
  question_queue st' = question_queue st0
  ∧ (current_question st' ≤ n)%nat
  ∧ (correct_answers st' ≤ current_question st')%nat
  ∧ ((current_question st' < n)%nat →
     load_score_history (fs st') = load_score_history (fs st))
  ∧ ((0 < n)%nat → current_question st' = n →
     ∃ date ratio,
       truediv (correct_answers st') n = Ok ratio
       ∧ load_score_history (fs st')
         = (load_score_history (fs st)
            ++ [{| se_date := date;
                   se_correct := correct_answers st';
                   se_total := n;
                   se_score := float_mul ratio float_100 |}])%list
       ∧ (correct_answers st' = n → float_mul ratio float_100 = float_100)
       ∧ (correct_answers st' = 0%nat
          → float_mul ratio float_100 = float_0)).
Proof.
  intros Hrun Hsteps n.
  apply run_quiz_progress in Hrun.
  assert (session_progress (load_score_history (fs st)) (question_queue st0)
            st') as H.
  { clear n. revert Hrun.
    generalize (question_queue st0) as queue.
    generalize (load_score_history (fs st)) as h0.
    induction Hsteps as [st0|st0 st1 st' Hstep _ IH]; intros h0 queue Hinv;
      [done|].
    apply IH. by eapply session_step_progress. }
  destruct H as (H1 & H2 & H3 & H4 & H5).
  split; [done|]. split; [done|]. split; [done|]. split; [done|].
  intros Hpos Hlast. fold n in H5.
  destruct (H5 Hpos Hlast) as (date & ratio & Hdiv & Hhist).
  exists date, ratio. split; [done|]. split; [done|]. split.
  - intros Hall. rewrite Hall, truediv_same in Hdiv by lia.
    by injection Hdiv as <-.
  - intros Hnone. rewrite Hnone, truediv_zero in Hdiv by lia.
    by injection Hdiv as <-.
Qed.

(** A bank of one question, answered correctly: the history gets the
    record 1 out of 1, with score 100.0. *)
Lemma session_score_record_witness :
  ∃ st0 scr st' date,
    run_quiz id "2026-01-01 09:00:00" 5 [("Topic 1", [Q1])] false false
      (initial_state no_files) = Ok (st0, scr)
    ∧ session_step elements st0 st'
    ∧ load_score_history (fs st')
      = [{| se_date := date; se_correct := 1; se_total := 1;
            se_score := float_100 |}].
Proof.
  set (st0 := with_queue [Q1] (initial_state no_files)).
  set (st1 := mark_question_correct Q1 (add_correct st0)).
  set (st2 := with_fs
                {| fs := fs st1; questions_asked := questions_asked st1;
                   correct_answers := correct_answers st1;
                   question_queue := question_queue st1;
                   current_question := 1;
                   question_memory := question_memory st1 |}
                (record_score "2026-01-01 09:05:00" float_100 1 1 (fs st1))).
  assert (run_quiz id "2026-01-01 09:00:00" 5 [("Topic 1", [Q1])] false false
            (initial_state no_files)
          = Ok (st0, MultipleChoiceWindow Q1 1)) as Hrun by by_compute_eq.
  assert (session_step elements st0 st2) as Hstep.
  { apply (step_multiple_choice elements st0 Q1 {["A"]} st1
             ("Correct!" ++ nl ++ "Explanation: No explanation available.")
             "2026-01-01 09:05:00" st2
             (EndWindow "Score: 1/1 (100.00%)")).
    - reflexivity.
    - reflexivity.
    - by_compute_eq.
    - by_compute_eq. }
  exists st0, (MultipleChoiceWindow Q1 1), st2.
  destruct (session_score_record id elements "2026-01-01 09:00:00" 5
              [("Topic 1", [Q1])] false false (initial_state no_files)
              st0 (MultipleChoiceWindow Q1 1) st2 Hrun (rtc_once _ _ Hstep))
    as (_ & _ & _ & _ & Hend).
  destruct Hend as (date & ratio & _ & Hhist & Hall & _);
    [simpl; lia|reflexivity|].
  exists date. split; [exact Hrun|]. split; [exact Hstep|].
  rewrite Hhist, Hall by reflexivity. reflexivity.
Defined.

(** ** The display of a letter set *)

Lemma format_letter_cases options L :
  let f := λ L, c ← ord L;
                let idx := (c - 65)%Z in
                if decide (0 ≤ idx < Z.of_nat (length options))%Z
                then opt ← list_index options idx; Ok (L ++ ". " ++ opt)
                else Ok L in
  (String.length L = 1%nat → ∃ part, f L = Ok part)
  ∧ (String.length L ≠ 1%nat → f L = Raise TypeError).
Proof.
  intros f. subst f. cbv beta. split.
  - destruct L as [|c [|d L]]; [done| |done]. intros _.
    cbn [ord]. rewrite bind_ok. cbv zeta.
    case_decide as Hidx; [|eauto].
    destruct (lookup_lt_is_Some_2 options
                (Z.to_nat (Z.of_nat (nat_of_ascii c) - 65)))
      as [opt Hopt]; [lia|].
    rewrite <- (Z2Nat.id (Z.of_nat (nat_of_ascii c) - 65)) by lia.
    rewrite (list_index_nat _ _ _ Hopt), bind_ok. eauto.
  - destruct L as [|c [|d L]]; [done| |done]. done.
Qed.

Lemma map_result_type_error {A B} (f : A → result B) l :
  (∀ x, x ∈ l → (∃ y, f x = Ok y) ∨ f x = Raise TypeError) →
  (∃ ys, map_result f l = Ok ys ∧ ∀ x, x ∈ l → ∃ y, f x = Ok y)
  ∨ (map_result f l = Raise TypeError ∧ ∃ x, x ∈ l ∧ f x = Raise TypeError).
Proof.
  induction l as [|x l IH]; intros Hf.
  - left. exists []. split; [done|]. intros x Hx. by apply elem_of_nil in Hx.
  - cbn [map_result].
    destruct (Hf x ltac:(left)) as [[y Hy]|Hx].
    + rewrite Hy, bind_ok.
      destruct IH as [(ys & -> & Hall)|(-> & z & Hz & Hfz)].
      * intros z Hz. apply Hf. by right.
      * left. exists (y :: ys). split; [done|].
        intros z [->|Hz]%elem_of_cons; eauto.
      * right. split; [done|]. exists z. split; [by right|done].
    + rewrite Hx. right. split; [done|]. exists x. split; [by left|done].
Qed.

(** [format_correct_answer] returns for every set of one-character
    letters, a letter beyond the options being shown without text; it raises
    [TypeError], and nothing else, exactly when some element is not one
    character. *)
Theorem format_correct_answer_errors options (letters : gset string) :
  ((∀ L, L ∈ letters → String.length L = 1%nat) →
   ∃ display, format_correct_answer options letters = Ok display)
  ∧ ((∃ L, L ∈ letters ∧ String.length L ≠ 1%nat) →
     format_correct_answer options letters = Raise TypeError).
Proof.
  unfold format_correct_answer.
  match goal with
  | |- context [map_result ?f ?l] =>
      destruct (map_result_type_error f l) as [(ys & Hok & Hall)|(Hr & L & HL & HfL)]
  end.
  - intros L _. destruct (decide (String.length L = 1%nat)) as [H1|H1].
    + left. by apply (format_letter_cases options L).
    + right. by apply (format_letter_cases options L).
  - split.
    + intros _. case_decide; [eauto|]. rewrite Hok, bind_ok. eauto.
    + intros (L & HL & Hlen). exfalso.
      destruct (Hall L) as [y Hy].
      * unfold sorted. rewrite merge_sort_Permutation.
        by apply elem_of_elements.
      * pose proof (proj2 (format_letter_cases options L) Hlen) as Hbad.
        cbv beta zeta in Hbad, Hy. congruence.
  - assert (L ∈ letters ∧ String.length L ≠ 1%nat) as [HLin Hlen].
    { unfold sorted in HL. rewrite merge_sort_Permutation in HL.
      split; [by apply elem_of_elements|].
      intros H1.
      destruct (proj1 (format_letter_cases options L) H1) as [y Hy].
      cbv beta zeta in Hy, HfL. congruence. }
    split.
    + intros Hall. by destruct Hlen; apply Hall.
    + intros _. case_decide as Hempty; [set_solver|]. by rewrite Hr.
Qed.

(** One option: the letter "Z" is shown bare; the two-character element
    "AB" raises. *)
Lemma format_correct_answer_errors_witness :
  format_correct_answer ["Foo"] {["A"; "Z"]} = Ok "A. Foo, Z"
  ∧ format_correct_answer ["Foo"] {["A"; "AB"]} = Raise TypeError.
Proof.
  split; [by_compute_eq|].
  apply (format_correct_answer_errors ["Foo"] {["A"; "AB"]}).
  exists "AB". split; [set_solver|]. simpl. lia.
Defined.

(** ** The validation pass *)

Lemma validate_question_total topic idx q :
  ∃ issues, validate_question topic idx q = Ok issues.
Proof.
  unfold validate_question. destruct q as [x|items|fields]; [eauto..|].
  cbv zeta.
  destruct (default json_none (json_get "options" fields))
    as [x|[|o os]|fs]; [eauto..| |eauto].
  destruct (equals_text _ "multiple_choice").
  - destruct (normalize_total (options_of_json (o :: os))
                (answer_of_json
                   (default json_none (json_get "answer" fields))))
      as [letters ->].
    rewrite bind_ok. case_decide; eauto.
  - destruct (equals_text _ "drag_and_drop"); [|eauto].
    destruct (default json_none (json_get "answer" fields))
      as [x|[|a items]|fs]; eauto.
Qed.

Lemma equals_text_true v s : equals_text v s = true ↔ v = JScalar (SStr s).
Proof.
  destruct v as [[| |t]|items|fields]; simpl; try (split; [done|by intros [=]]).
  rewrite bool_decide_eq_true. split; [by intros ->|by intros [= ->]].
Qed.

Lemma snoc_not_nil {A} (l : list A) x : Ok (l ++ [x])%list ≠ Ok [].
Proof. intros [= H]. by destruct l. Qed.

Lemma question_text_ok (qtext : json) :
  negb (truthy qtext) || negb (is_text qtext) = false
  ↔ ∃ text, qtext = JScalar (SStr text) ∧ text ≠ EmptyString.
Proof.
  split.
  - destruct qtext as [[| |text]|items|fields]; simpl;
      try done; try (by rewrite orb_true_r).
    rewrite orb_false_r, negb_involutive.
    intros H%bool_decide_eq_false. eauto.
  - intros (text & -> & Hne). simpl.
    by rewrite orb_false_r, negb_involutive, bool_decide_eq_false.
Qed.

(** An entry gets no issue exactly when it is well formed. *)
Lemma validate_question_no_issue topic idx q :
  validate_question topic idx q = Ok [] ↔ well_formed_question q.
Proof.
  unfold validate_question, well_formed_question. split.
  - destruct q as [x|items|fields]; [done|done|]. cbv zeta.
    set (issues := if negb _ || negb _ then _ else _).
    set (ans := default json_none (json_get "answer" fields)).
    set (qtype := default (JScalar (SStr "multiple_choice"))
                    (json_get "type" fields)).
    intros H.
    assert (issues = []
            ∧ ∃ opts, json_get "options" fields = Some (JList opts)
                      ∧ opts ≠ []
                      ∧ ((equals_text qtype "multiple_choice" = true
                          ∧ ∃ letters,
                              normalize_mc_answer_to_letters
                                (options_of_json opts) (answer_of_json ans)
                              = Ok letters ∧ letters ≠ ∅)
                         ∨ (equals_text qtype "multiple_choice" = false
                            ∧ equals_text qtype "drag_and_drop" = true
                            ∧ ∃ items, ans = JList items ∧ items ≠ [])))
      as (Hiss & opts & Hopts & Hne & Htype).
    { destruct (json_get "options" fields) as [[x|[|o os]|fs]|];
        cbn [from_option id json_none] in H;
        try (by apply snoc_not_nil in H).
      destruct (equals_text qtype "multiple_choice") eqn:Hmc.
      - destruct (normalize_mc_answer_to_letters _ _) as [letters|] eqn:Hn;
          [|done].
        rewrite bind_ok in H. case_decide; [by apply snoc_not_nil in H|].
        injection H as ->. split; [done|]. exists (o :: os).
        split; [done|]. split; [done|]. left. eauto.
      - destruct (equals_text qtype "drag_and_drop") eqn:Hdnd;
          [|by apply snoc_not_nil in H].
        destruct ans as [x|[|a items]|fs] eqn:Hans;
          try (by apply snoc_not_nil in H).
        injection H as ->. split; [done|]. exists (o :: os).
        split; [done|]. split; [done|]. right. eauto 6. }
    assert (∃ text, json_get "question" fields = Some (JScalar (SStr text))
                    ∧ text ≠ EmptyString) as (text & Htext & Hnet).
    { subst issues.
      destruct (negb _ || negb _) eqn:Hq; [done|].
      apply question_text_ok in Hq as (text & Hq & Hnet).
      exists text. split; [|done].
      destruct (json_get "question" fields); [by simplify_eq/=|done]. }
    exists fields, text, opts.
    split; [done|]. split; [done|]. split; [done|]. split; [done|].
    split; [done|].
    destruct Htype as [[Hmc Hlet]|(Hmc & Hdnd & items & Hans & Hitems)].
    + left. split; [|done].
      apply equals_text_true in Hmc. subst qtype.
      destruct (json_get "type" fields); [right; by simplify_eq/=|by left].
    + right. apply equals_text_true in Hdnd. subst qtype ans. split.
      * destruct (json_get "type" fields); by simplify_eq/=.
      * exists items. split; [|done].
        destruct (json_get "answer" fields); by simplify_eq/=.
  - intros (fields & text & opts & -> & Hq & Hnet & Hopts & Hne & Htype).
    cbv zeta. rewrite Hq, Hopts. cbn [from_option id].
    rewrite (proj2 (question_text_ok (JScalar (SStr text)))) by eauto.
    destruct opts as [|o os]; [done|].
    destruct Htype as [[Hty (letters & Hn & Hlet)]|(Hty & items & Hans & Hit)].
    + assert (equals_text (default (JScalar (SStr "multiple_choice"))
                             (json_get "type" fields)) "multiple_choice"
              = true) as ->.
      { apply equals_text_true. by destruct Hty as [-> | ->]. }
      rewrite Hn, bind_ok. by case_decide.
    + rewrite Hty, Hans. cbn [from_option id equals_text].
      rewrite bool_decide_eq_false_2 by done.
      rewrite bool_decide_eq_true_2 by done.
      by destruct items.
Qed.

Lemma validate_entries_ok topic idx questions acc :
  ∃ issues,
    validate_entries topic idx questions acc
    = Ok ((acc.1 + length questions)%nat, (acc.2 ++ issues)%list)
    ∧ (issues = [] ↔ Forall well_formed_question questions).
Proof.
  revert idx acc. induction questions as [|q rest IH]; intros idx acc.
  - exists []. cbn [validate_entries length].
    rewrite Nat.add_0_r, app_nil_r. by destruct acc.
  - cbn [validate_entries].
    destruct (validate_question_total topic idx q) as [new Hnew].
    rewrite Hnew, bind_ok.
    destruct (IH (S idx) ((acc.1 + 1)%nat, (acc.2 ++ new)%list))
      as (issues & -> & Hiff).
    exists (new ++ issues)%list. cbn [fst snd length]. split.
    + f_equal. f_equal; [lia|by rewrite app_assoc].
    + rewrite Forall_cons, <- validate_question_no_issue, <- Hiff, Hnew.
      split.
      * intros [-> ->]%app_eq_nil. done.
      * intros [[= ->] ->]. done.
Qed.

Lemma validate_topics_ok topics acc :
  ∃ issues,
    fold_result
      (λ acc t,
         match t.2 with
         | JList questions => validate_entries t.1 1 questions acc
         | _ => Ok (acc.1, (acc.2 ++ [topic_not_a_list t.1])%list)
         end) acc topics
    = Ok ((acc.1 + count_entries topics)%nat, (acc.2 ++ issues)%list)
    ∧ (issues = [] ↔ well_formed_bank topics).
Proof.
  revert acc. induction topics as [|[topic v] topics IH]; intros acc.
  - exists []. cbn [fold_result]. unfold count_entries. simpl.
    rewrite Nat.add_0_r, app_nil_r. split; [by destruct acc|].
    split; [constructor|done].
  - cbn [fold_result fst snd].
    assert (∃ new,
              match v with
              | JList questions => validate_entries topic 1 questions acc
              | _ => Ok (acc.1, (acc.2 ++ [topic_not_a_list topic])%list)
              end
              = Ok ((acc.1 + match v with
                              | JList questions => length questions
                              | _ => 0
                              end)%nat, (acc.2 ++ new)%list)
              ∧ (new = [] ↔ ∃ questions,
                              v = JList questions
                              ∧ Forall well_formed_question questions))
      as (new & -> & Hnew).
    { destruct v as [x|questions|fields].
      - exists [topic_not_a_list topic]. rewrite Nat.add_0_r.
        split; [done|]. split; [done|]. by intros (? & [=] & _).
      - destruct (validate_entries_ok topic 1 questions acc)
          as (issues & -> & Hiff).
        exists issues. split; [done|]. rewrite Hiff. split; [eauto|].
        by intros (? & [= <-] & ?).
      - exists [topic_not_a_list topic]. rewrite Nat.add_0_r.
        split; [done|]. split; [done|]. by intros (? & [=] & _). }
    rewrite bind_ok.
    destruct (IH ((acc.1 + match v with
                           | JList questions => length questions
                           | _ => 0
                           end)%nat, (acc.2 ++ new)%list))
      as (issues & -> & Hiff).
    exists (new ++ issues)%list. cbn [fst snd]. split.
    + f_equal. f_equal; [|by rewrite app_assoc].
      unfold count_entries. rewrite fmap_cons.
      change (sum_list (?x :: ?l)) with (x + sum_list l)%nat.
      cbn [snd]. lia.
    + unfold well_formed_bank in *. rewrite Forall_cons. cbn [snd].
      rewrite <- Hnew, <- Hiff. split.
      * by intros [-> ->]%app_eq_nil.
      * by intros [-> ->].
Qed.

(** [validate_questions] returns for every bank; its total is the number
    of entries of the topics that are lists; and it reports no issue exactly
    when every topic is a list of well-formed questions. *)
Theorem validation_passes_iff_well_formed topics :
  ∃ issues,
    validate_questions topics = Ok (count_entries topics, issues)
    ∧ (issues = [] ↔ well_formed_bank topics).
Proof.
  unfold validate_questions.
  destruct (validate_topics_ok topics (0%nat, [])) as (issues & H & Hiff).
  exists issues. split; [exact H|exact Hiff].
Qed.

Lemma validation_bank_well_formed topics total :
  validate_questions topics = Ok (total, []) → well_formed_bank topics.
Proof.
  unfold validate_questions. intros H.
  destruct (validate_topics_ok topics (0%nat, [])) as (issues & H' & Hiff).
  rewrite H' in H. injection H as _ ->. by apply Hiff.
Qed.

(** A multiple-choice question of a bank that passes the validation can be
    played: it has its "answer" key, its answer normalises to a non-empty
    set of option letters, and the matcher returns for every selection,
    judging correct that set of letters and no other. *)
Theorem validated_multiple_choice_plays
    (set_order : gset scalar → list scalar) topics total topic questions
    fields opts :
  validate_questions topics = Ok (total, []) →
  (topic, JList questions) ∈ topics →
  JObject fields ∈ questions →
  json_get "options" fields = Some (JList opts) →
  json_get "type" fields = None
  ∨ json_get "type" fields = Some (JScalar (SStr "multiple_choice")) →
  letters_fit (options_of_json opts) →
  ∃ ans letters,
    json_get "answer" fields = Some ans
    ∧ letters ≠ ∅
    ∧ (∀ L, L ∈ letters → valid_letter (options_of_json opts) L)
    ∧ ∀ selected,
        is_mc_selection_correct set_order (options_of_json opts)
          (answer_of_json ans) selected
        = Ok (bool_decide (selected = letters),
              letters_with_texts (options_of_json opts) letters).
Proof.
  intros Hval Hin Hq Hopts Htype Hfit.
  pose proof (validation_bank_well_formed topics total Hval) as Hbank.
  unfold well_formed_bank in Hbank. rewrite Forall_forall in Hbank.
  destruct (Hbank _ Hin) as (qs & [= <-] & Hqs).
  rewrite Forall_forall in Hqs.
  destruct (Hqs _ Hq)
    as (fields' & text & opts' & [= <-] & _ & _ & Hopts' & _ & Hkind).
  rewrite Hopts in Hopts'. injection Hopts' as <-.
  destruct Hkind as [[_ (letters & Hn & Hne)]|[Hdnd _]];
    [|destruct Htype as [Ht|Ht]; rewrite Ht in Hdnd; discriminate].
  destruct (json_get "answer" fields) as [ans|] eqn:Hans.
  - exists ans, letters. cbn [from_option id] in Hn.
    split; [done|]. split; [done|]. split.
    + intros L. by eapply normalize_valid.
    + intros selected.
      rewrite (is_mc_primary set_order _ _ selected letters Hn Hne).
      rewrite format_correct_answer_spec; [done|done| |done].
      intros L. by eapply normalize_valid.
  - cbn [from_option id json_none answer_of_json] in Hn.
    injection Hn as <-. done.
Qed.

Lemma validated_multiple_choice_plays_witness :
  validate_questions sample_json_bank = Ok (2%nat, [])
  ∧ ∀ selected,
      is_mc_selection_correct elements ["Foo"; "Bar"] (AScalar (SStr "Foo"))
        selected
      = Ok (bool_decide (selected = {["A"]}), "A. Foo").
Proof.
  assert (validate_questions sample_json_bank = Ok (2%nat, [])) as Hval
    by by_compute_eq.
  split; [exact Hval|].
  destruct (validated_multiple_choice_plays elements sample_json_bank 2
              "Topic 1"
              [sample_json_question "First?" ["Foo"; "Bar"] "B";
               sample_json_question "Second?" ["Foo"; "Bar"] "Foo"]
              [("question", JScalar (SStr "Second?"));
               ("options", JList (JScalar ∘ SStr <$> ["Foo"; "Bar"]));
               ("answer", JScalar (SStr "Foo"))]
              (JScalar ∘ SStr <$> ["Foo"; "Bar"]))
    as (ans & letters & Hans & Hne & Hvalid & Hmc).
  - exact Hval.
  - left.
  - right. left.
  - reflexivity.
  - by left.
  - unfold letters_fit. simpl. lia.
  - injection Hans as <-. intros selected.
    specialize (Hmc {["A"]}) as HA.
    assert (is_mc_selection_correct elements
              (options_of_json (JScalar ∘ SStr <$> ["Foo"; "Bar"]))
              (answer_of_json (JScalar (SStr "Foo"))) {["A"]}
            = Ok (true, "A. Foo")) as Heval by by_compute_eq.
    rewrite Heval in HA. injection HA as Hb Hd.
    symmetry in Hb. apply bool_decide_eq_true in Hb. subst letters.
    exact (Hmc selected).
Defined.

(** ** Normalising twice *)

Lemma letter_token options i :
  (length options ≤ 32)%nat → (i < length options)%nat →
  token_letters options (SStr (chr (65 + i))) = {[chr (65 + i)]}.
Proof.
  intros Hn Hi.
  assert (is_space (ascii_of_nat (65 + i)) = false) as Hsp.
  { unfold is_space. rewrite nat_ascii_embedding by lia. cbv zeta.
    assert ((65 + i <=? 13)%nat = false) as -> by (apply Nat.leb_gt; lia).
    assert ((65 + i <=? 32)%nat = false) as -> by (apply Nat.leb_gt; lia).
    assert ((65 + i =? 133)%nat = false) as -> by (apply Nat.eqb_neq; lia).
    assert ((65 + i =? 160)%nat = false) as -> by (apply Nat.eqb_neq; lia).
    by rewrite !andb_false_r. }
  assert (upper (chr (65 + i)) = chr (65 + i)) as Hup.
  { unfold chr, upper, upper_char. rewrite nat_ascii_embedding by lia.
    cbv zeta.
    assert ((97 <=? 65 + i)%nat = false) as -> by (apply Nat.leb_gt; lia).
    assert ((224 <=? 65 + i)%nat = false) as -> by (apply Nat.leb_gt; lia).
    done. }
  assert (strip (chr (65 + i)) = chr (65 + i)) as Hst.
  { unfold strip, chr. cbn [lstrip]. rewrite Hsp. cbn [rstrip_chars].
    by rewrite Hsp. }
  unfold token_letters.
  rewrite (resolve_leading options (SStr (chr (65 + i)))
             (ascii_of_nat (65 + i)) EmptyString).
  - fold (chr (65 + i)). rewrite Hup. simpl. set_solver.
  - exact Hst.
  - fold (chr (65 + i)). rewrite Hup. apply valid_letter_iff. eauto.
Qed.

(** With at most 32 options (the letters stay below the lowercase range),
    a normalised answer is a fixed point: normalising its letters gives the
    same set. *)
Theorem normalize_idempotent options ans letters :
  (length options ≤ 32)%nat →
  normalize_mc_answer_to_letters options ans = Ok letters →
  normalize_mc_answer_to_letters options (AList (SStr <$> elements letters))
  = Ok letters.
Proof.
  intros Hn Hnorm. rewrite normalize_list. f_equal.
  apply set_eq. intros L. rewrite elem_of_union_list. split.
  - intros (X & HX & HL).
    apply list_elem_of_fmap in HX as (x & -> & Hx).
    apply list_elem_of_fmap in Hx as (L' & -> & HL').
    apply elem_of_elements in HL'.
    pose proof (normalize_valid options ans letters L' Hnorm HL') as Hv.
    apply valid_letter_iff in Hv as (i & Hi & ->).
    rewrite letter_token in HL by done.
    by apply elem_of_singleton in HL as ->.
  - intros HL.
    pose proof (normalize_valid options ans letters L Hnorm HL) as Hv.
    apply valid_letter_iff in Hv as (i & Hi & ->).
    exists {[chr (65 + i)]}. split; [|by apply elem_of_singleton].
    apply list_elem_of_fmap. exists (SStr (chr (65 + i))).
    split; [by rewrite letter_token|].
    apply list_elem_of_fmap. exists (chr (65 + i)).
    split; [done|]. by apply elem_of_elements.
Qed.

Lemma normalize_idempotent_witness :
  normalize_mc_answer_to_letters ["Alpha"; "Beta"; "Gamma"]
    (AList [SStr "Gamma"; SStr "a:"]) = Ok {["A"; "C"]}
  ∧ normalize_mc_answer_to_letters ["Alpha"; "Beta"; "Gamma"]
      (AList (SStr <$> elements ({["A"; "C"]} : gset string)))
    = Ok {["A"; "C"]}.
Proof.
  assert (normalize_mc_answer_to_letters ["Alpha"; "Beta"; "Gamma"]
            (AList [SStr "Gamma"; SStr "a:"]) = Ok {["A"; "C"]}) as H
    by by_compute_eq.
  split; [exact H|].
  apply (normalize_idempotent ["Alpha"; "Beta"; "Gamma"]
           (AList [SStr "Gamma"; SStr "a:"])); [simpl; lia|exact H].
Defined.
